(** * TRPG script editor: the story flattener of [main.py]

    A shallow embedding of [parse_story] (lines 62-96 of [src/main.py]),
    of [check_json_health] (lines 54-59) and of the part of the page script
    that calls them (lines 197-212), followed by the properties of the
    flattening that the specification states.

    Conventions of the embedding.
    - A Python [str] is the list of its Unicode code points ([pystr]).
    - A decoded JSON document is a [json] value; a [dict] is an association
      list, in insertion order (the order Python iterates it in).  JSON
      numbers are modelled as integers: literals with a fraction or an
      exponent are outside the model.
    - Python exceptions are explicit: a computation of type [res A] returns
      ([Ret]), raises ([Raise]), or has used up the iterations it was
      allowed ([Fuel]; only the [while] loop can answer that). *)

From Stdlib Require Import String Ascii.
From Stdlib Require Import List ZArith Lia Bool Decimal DecimalZ Permutation
  PeanoNat.
Import ListNotations.

Local Open Scope Z_scope.
Local Open Scope list_scope.

(** ** Strings *)

Definition pystr := list Z.

(** Code points of an ASCII literal. *)
Definition lit (s : string) : pystr :=
  map (fun a => Z.of_N (N_of_ascii a)) (list_ascii_of_string s).

Fixpoint str_eqb (s t : pystr) : bool :=
  match s, t with
  | [], [] => true
  | a :: s', b :: t' => (a =? b) && str_eqb s' t'
  | _, _ => false
  end.

(** Decimal digits, most significant first. *)
Fixpoint digits (d : uint) : pystr :=
  match d with
  | Nil => []
  | D0 d' => 48 :: digits d'
  | D1 d' => 49 :: digits d'
  | D2 d' => 50 :: digits d'
  | D3 d' => 51 :: digits d'
  | D4 d' => 52 :: digits d'
  | D5 d' => 53 :: digits d'
  | D6 d' => 54 :: digits d'
  | D7 d' => 55 :: digits d'
  | D8 d' => 56 :: digits d'
  | D9 d' => 57 :: digits d'
  end.

(** [str(n)] for an [int], as an f-string field renders it. *)
Definition str_int (n : Z) : pystr :=
  match Z.to_int n with
  | Pos d => digits d
  | Neg d => 45 :: digits d
  end.

(** ** Exceptions *)

Inductive exn : Set :=
| AttributeError
| IndexError
| ValueError
| JSONDecodeError.

Inductive res (A : Type) : Type :=
| Ret (a : A)
| Raise (e : exn)
| Fuel.
Arguments Ret {A} a.
Arguments Raise {A} e.
Arguments Fuel {A}.

Definition bind {A B : Type} (m : res A) (k : A -> res B) : res B :=
  match m with
  | Ret a => k a
  | Raise e => Raise e
  | Fuel => Fuel
  end.

Notation "x <- m ;; k" := (bind m (fun x => k))
  (at level 61, m at next level, right associativity).
Notation "' p <- m ;; k" := (bind m (fun p => k))
  (at level 61, p pattern, m at next level, right associativity).

(** A [for] loop whose body may raise. *)
Fixpoint for_each {S A : Type} (body : S -> A -> res S) (s : S) (l : list A)
  : res S :=
  match l with
  | [] => Ret s
  | x :: l' => s' <- body s x ;; for_each body s' l'
  end.

(** A list comprehension whose element expression may raise. *)
Fixpoint comprehension {A B : Type} (f : A -> res B) (l : list A)
  : res (list B) :=
  match l with
  | [] => Ret []
  | x :: l' => y <- f x ;; ys <- comprehension f l' ;; Ret (y :: ys)
  end.

(** [chr(i)]: [ValueError] outside [range(0x110000)]. *)
Definition chr (i : Z) : res pystr :=
  if (0 <=? i) && (i <? 1114112) then Ret [i] else Raise ValueError.

(** [ord("A")]. *)
Definition ord_A : Z := 65.

(** ** JSON values *)

#[local] Set Warnings "-register-all".

Inductive json : Type :=
| JNull
| JBool (b : bool)
| JInt (n : Z)
| JStr (s : pystr)
| JList (l : list json)
| JDict (d : list (pystr * json)).

Definition dict := list (pystr * json).

Fixpoint dict_get (k : pystr) (d : dict) : option json :=
  match d with
  | [] => None
  | (k', v) :: d' => if str_eqb k k' then Some v else dict_get k d'
  end.

(** Both lists have the same length and [f] holds position by position. *)
Definition all2 {A B : Type} (f : A -> B -> bool) : list A -> list B -> bool :=
  fix go (l : list A) (m : list B) {struct l} : bool :=
    match l, m with
    | [], [] => true
    | x :: l', y :: m' => f x y && go l' m'
    | _, _ => false
    end.

(** Python's [==] on decoded values: [bool] is a subtype of [int], lists
    compare element by element, dicts compare as maps (same number of keys,
    and every key of the first has an equal value in the second). *)
Fixpoint py_eq (a b : json) {struct a} : bool :=
  match a, b with
  | JNull, JNull => true
  | JBool x, JBool y => Bool.eqb x y
  | JBool x, JInt n => (if x then 1 else 0) =? n
  | JInt n, JBool x => n =? (if x then 1 else 0)
  | JInt n, JInt m => n =? m
  | JStr s, JStr t => str_eqb s t
  | JList l, JList m => all2 py_eq l m
  | JDict d, JDict e =>
      (length d =? length e)%nat &&
      forallb (fun kv => match dict_get (fst kv) e with
                         | Some w => py_eq (snd kv) w
                         | None => false
                         end) d
  | _, _ => false
  end.

(** Truth value of a decoded document ([not story_data]). *)
Definition truthy (j : json) : bool :=
  match j with
  | JNull => false
  | JBool b => b
  | JInt n => negb (n =? 0)
  | JStr [] => false
  | JStr (_ :: _) => true
  | JList [] => false
  | JList (_ :: _) => true
  | JDict [] => false
  | JDict (_ :: _) => true
  end.

(** [isinstance(j, dict)]. *)
Definition isinstance_dict (j : json) : bool :=
  match j with
  | JDict _ => true
  | _ => false
  end.

(** [j.items()]: only a [dict] has the attribute. *)
Definition py_items (j : json) : res dict :=
  match j with
  | JDict d => Ret d
  | _ => Raise AttributeError
  end.

Fixpoint no_dup_keys (d : dict) : bool :=
  match d with
  | [] => true
  | (k, _) :: d' =>
      match dict_get k d' with
      | Some _ => false
      | None => no_dup_keys d'
      end
  end.

(** The values a JSON decoder produces: the keys of a dict are distinct. *)
Fixpoint wf_json (j : json) : bool :=
  match j with
  | JList l => forallb wf_json l
  | JDict d => no_dup_keys d && forallb (fun kv => wf_json (snd kv)) d
  | _ => true
  end.

(** Number of constructors; bounds the work of the flattening loop. *)
Fixpoint json_size (j : json) : nat :=
  match j with
  | JList l => S (list_sum (map json_size l))
  | JDict d => S (list_sum (map (fun kv => json_size (snd kv)) d))
  | _ => 1%nat
  end.

(** ** Lists as Python uses them *)

(** [enumerate(l)], counting from [i]. *)
Fixpoint enumerate_from {A : Type} (i : Z) (l : list A) : list (Z * A) :=
  match l with
  | [] => []
  | x :: l' => (i, x) :: enumerate_from (i + 1) l'
  end.

Definition enumerate {A : Type} (l : list A) : list (Z * A) :=
  enumerate_from 0 l.

(** [len(l)]. *)
Definition len {A : Type} (l : list A) : Z := Z.of_nat (length l).

(** [l.pop()]: the last element and the list without it. *)
Fixpoint pop {A : Type} (l : list A) : option (list A * A) :=
  match l with
  | [] => None
  | x :: l' =>
      match pop l' with
      | None => Some ([], x)
      | Some (r, y) => Some (x :: r, y)
      end
  end.

(** [x in l]. *)
Definition py_in (x : json) (l : list json) : bool := existsb (py_eq x) l.

(** [l.index(x)]: the first position holding a value equal to [x]. *)
Fixpoint py_index (x : json) (l : list json) : res nat :=
  match l with
  | [] => Raise ValueError
  | e :: l' => if py_eq x e then Ret 0%nat else i <- py_index x l' ;; Ret (S i)
  end.

(** [ls[i].append(x)] on a list of lists. *)
Definition append_at (i : nat) (x : pystr) (ls : list (list pystr))
  : res (list (list pystr)) :=
  match nth_error ls i with
  | None => Raise IndexError
  | Some l => Ret (firstn i ls ++ (l ++ [x]) :: skipn (S i) ls)
  end.

(** ** The flattener *)

(** The dataclass [Node] (lines 40-44). *)
Record Node : Type := mkNode {
  name : pystr;
  children : json;
  id : pystr
}.

(** The dataclass [Link] (lines 47-51), with fields [event], [option] and
    [children]; [children] holds the target of the edge. *)
Record Link : Type := mkLink {
  link_event : pystr;
  link_option : pystr;
  link_children : json
}.

(** The three lists [parse_story] builds. *)
Definition graph : Type := (list json * list (list pystr) * list Link)%type.

(** Lines 76-80 and 91-95: register [nm] with path id [pid].
    [[
    if nm not in events:
        events.append(nm)
        labels.append([pid])
    else:
        labels[events.index(nm)].append(pid)
    ]] *)
Definition record (nm : json) (pid : pystr)
    (events : list json) (labels : list (list pystr))
  : res (list json * list (list pystr)) :=
  if negb (py_in nm events) then Ret (events ++ [nm], labels ++ [[pid]])
  else
    i <- py_index nm events ;;
    labels' <- append_at i pid labels ;;
    Ret (events, labels').

(** [pid + f"-{n}"], the path id of a child (line 85). *)
Definition child_id (pid : pystr) (n : Z) : pystr :=
  pid ++ lit "-" ++ str_int n.

(** [pid + "-end"], the path id of a terminal outcome (lines 93 and 95). *)
Definition end_id (pid : pystr) : pystr := pid ++ lit "-end".

(** The variables the body of the [while] loop works on. *)
Record locals : Type := mkLocals {
  nodes : list Node;
  events : list json;
  labels : list (list pystr);
  links : list Link;
  branch_idx : Z
}.

(** Lines 82-95: the body of [for option, outcome in node.children.items()]. *)
Definition visit_option (node : Node) (s : locals) (item : pystr * json)
  : res locals :=
  let '(opt, outcome) := item in
  match outcome with
  | JDict d =>
      Ret {| links := links s ++
               map (fun kv => mkLink (name node) opt (JStr (fst kv))) d;
             nodes := nodes s ++
               map (fun '(idx, (ev, outcomes)) =>
                      mkNode ev outcomes
                        (child_id (id node) (idx + branch_idx s)))
                   (enumerate d);
             branch_idx := branch_idx s + len d;
             events := events s;
             labels := labels s |}
  | _ =>
      '(events', labels') <-
        record outcome (end_id (id node)) (events s) (labels s) ;;
      Ret {| links := links s ++ [mkLink (name node) opt outcome];
             nodes := nodes s;
             branch_idx := branch_idx s;
             events := events';
             labels := labels' |}
  end.

(** Lines 75-95: one iteration of the [while] loop, for the node just popped
    (the work list [rest] no longer holds it). *)
Definition visit (node : Node) (rest : list Node) (g : graph)
  : res (list Node * graph) :=
  let '(events0, labels0, links0) := g in
  '(events1, labels1) <- record (JStr (name node)) (id node) events0 labels0 ;;
  items <- py_items (children node) ;;
  s <- for_each (visit_option node)
         {| nodes := rest; events := events1; labels := labels1;
            links := links0; branch_idx := 0 |}
         items ;;
  Ret (nodes s, (events s, labels s, links s)).

(** Lines 73-95: [while nodes: node = nodes.pop() ...], allowed [fuel]
    iterations. *)
Fixpoint while_nodes (fuel : nat) (work : list Node) (g : graph) : res graph :=
  match pop work with
  | None => Ret g
  | Some (rest, node) =>
      match fuel with
      | O => Fuel
      | S fuel' =>
          '(work', g') <- visit node rest g ;;
          while_nodes fuel' work' g'
      end
  end.

(** Lines 64-96: [parse_story] from the decoded document on.  [None] stands
    for the triple [(None, None, None)]. *)
Definition flatten (fuel : nat) (story_data : json) : res (option graph) :=
  if negb (truthy story_data) || negb (isinstance_dict story_data) then Ret None
  else
    items <- py_items story_data ;;
    work <- comprehension
              (fun '(idx, (ev, outcomes)) =>
                 c <- chr (ord_A + idx) ;; Ret (mkNode ev outcomes c))
              (enumerate items) ;;
    g <- while_nodes fuel work ([], [], []) ;;
    Ret (Some g).

(** Iterations that are always enough for [story_data]. *)
Definition enough (story_data : json) : nat := json_size story_data.

(** ** The page script *)

Section Page.

(** [json.loads], of the Python library: the decoded value, or
    [JSONDecodeError]. *)
Variable json_loads : pystr -> res json.

(** Lines 54-59. *)
Definition check_json_health (json_data : pystr) : res bool :=
  match json_loads json_data with
  | Ret _ => Ret true
  | Raise JSONDecodeError => Ret false
  | Raise e => Raise e
  | Fuel => Fuel
  end.

(** Lines 62-96; [content] is [st.session_state["content"]]. *)
Definition parse_story (fuel : nat) (content : pystr) : res (option graph) :=
  story_data <- json_loads content ;;
  flatten fuel story_data.

(** What the right column shows. *)
Inductive page : Type :=
| FormatError
| Sankey (sources targets : list nat) (options : list pystr).

(** Lines 197-212: the checks before the chart and the indices the chart is
    drawn from.  [FormatError] is [st.error(...)] followed by [st.stop()]. *)
Definition preview (fuel : nat) (content : pystr) : res page :=
  healthy <- check_json_health content ;;
  if negb healthy then Ret FormatError
  else
    r <- parse_story fuel content ;;
    match r with
    | None => Ret FormatError
    | Some (events, labels, links) =>
        match events, labels, links with
        | [], _, _ | _, [], _ | _, _, [] => Ret FormatError
        | _, _, _ =>
            sources <- comprehension
                         (fun l => py_index (JStr (link_event l)) events) links ;;
            targets <- comprehension
                         (fun l => py_index (link_children l) events) links ;;
            Ret (Sankey sources targets (map link_option links))
        end
    end.

End Page.

(** ** Documents used below *)

(** [{"S": {"A": "E1", "B": "E2"}}] *)
Definition scenario1 : json :=
  JDict [(lit "S", JDict [(lit "A", JStr (lit "E1"));
                          (lit "B", JStr (lit "E2"))])].

(** [{"S": {"A": {"S": {"B": "E1"}}}}] *)
Definition scenario3 : json :=
  JDict [(lit "S",
          JDict [(lit "A",
                  JDict [(lit "S", JDict [(lit "B", JStr (lit "E1"))])])])].

(** [{"A": {"T": {"C": "E1"}}, "B": {"U": {"D": "E2"}}}]: two options, each
    leading to a nested mapping. *)
Definition two_branches_items : dict :=
  [(lit "A", JDict [(lit "T", JDict [(lit "C", JStr (lit "E1"))])]);
   (lit "B", JDict [(lit "U", JDict [(lit "D", JStr (lit "E2"))])])].

(** [{"S": {"A": {"T": {"C": "E1"}}, "B": {"U": {"D": "E2"}}}}] *)
Definition two_branches : json := JDict [(lit "S", JDict two_branches_items)].

(** The node popped first for [two_branches]. *)
Definition two_branches_root : Node :=
  mkNode (lit "S") (JDict two_branches_items) (lit "A").

(** What [flatten] returns for [two_branches]. *)
Definition two_branches_graph : graph :=
  ([JStr (lit "S"); JStr (lit "U"); JStr (lit "E2"); JStr (lit "T");
    JStr (lit "E1")],
   [[lit "A"]; [lit "A-1"]; [lit "A-1-end"]; [lit "A-0"]; [lit "A-0-end"]],
   [mkLink (lit "S") (lit "A") (JStr (lit "T"));
    mkLink (lit "S") (lit "B") (JStr (lit "U"));
    mkLink (lit "U") (lit "D") (JStr (lit "E2"));
    mkLink (lit "T") (lit "C") (JStr (lit "E1"))]).

(** [{"S": "x"}] *)
Definition string_valued : json := JDict [(lit "S", JStr (lit "x"))].

(** What [flatten] returns for [scenario1]. *)
Definition scenario1_graph : graph :=
  ([JStr (lit "S"); JStr (lit "E1"); JStr (lit "E2")],
   [[lit "A"]; [lit "A-end"]; [lit "A-end"]],
   [mkLink (lit "S") (lit "A") (JStr (lit "E1"));
    mkLink (lit "S") (lit "B") (JStr (lit "E2"))]).

(** The graph the specification expects for [scenario1]. *)
Definition scenario1_expected : graph :=
  ([JStr (lit "S"); JStr (lit "E1"); JStr (lit "E2")],
   [[lit "A"]; [lit "A-end"]; [lit "B-end"]],
   [mkLink (lit "S") (lit "A") (JStr (lit "E1"));
    mkLink (lit "S") (lit "B") (JStr (lit "E2"))]).

(** The path ids [flatten] records for [scenario1], entry by entry. *)
Definition scenario1_ids : list pystr := [lit "A"; lit "A-end"; lit "A-end"].

(** What [flatten] returns for [scenario3]. *)
Definition scenario3_graph : graph :=
  ([JStr (lit "S"); JStr (lit "E1")],
   [[lit "A"; lit "A-0"]; [lit "A-0-end"]],
   [mkLink (lit "S") (lit "A") (JStr (lit "S"));
    mkLink (lit "S") (lit "B") (JStr (lit "E1"))]).

(** The text [{"S": "x"}], by code points. *)
Definition string_valued_text : pystr :=
  [123; 34; 83; 34; 58; 32; 34; 120; 34; 125].

(** A decoder that knows this one document. *)
Definition loads_string_valued (text : pystr) : res json :=
  if str_eqb text string_valued_text then Ret string_valued
  else Raise JSONDecodeError.

(** The text [{"S": {"A": {"S": {"B": "E1"}}}}], by code points. *)
Definition scenario3_text : pystr :=
  [123; 34; 83; 34; 58; 32; 123; 34; 65; 34; 58; 32; 123; 34; 83; 34; 58; 32;
   123; 34; 66; 34; 58; 32; 34; 69; 49; 34; 125; 125; 125; 125].

(** A decoder that knows this one document. *)
Definition loads_scenario3 (text : pystr) : res json :=
  if str_eqb text scenario3_text then Ret scenario3
  else Raise JSONDecodeError.

(** The top-level mapping of [scenario3]. *)
Definition scenario3_items : dict :=
  [(lit "S",
    JDict [(lit "A",
            JDict [(lit "S", JDict [(lit "B", JStr (lit "E1"))])])])].

(** The inner occurrence of [S] in [scenario3]. *)
Definition scenario3_inner : Node :=
  mkNode (lit "S") (JDict [(lit "B", JStr (lit "E1"))]) (lit "A-0").

(** ** Predicates of the statements *)

(** Every event has its list of path ids, and none of these is empty. *)
Definition labelled (evs : list json) (lbs : list (list pystr)) : Prop :=
  length evs = length lbs /\ Forall (fun l => l <> []) lbs.

(** The code points of ["0"] to ["9"]. *)
Definition is_digit (c : Z) : Prop := 48 <= c <= 57.

(** [s.endswith(suffix)]. *)
Definition endswith (s suffix : pystr) : bool :=
  str_eqb (skipn (length s - length suffix) s) suffix.

(** Path ids of terminal outcomes end in ["-end"]. *)
Definition is_end_id (pid : pystr) : bool := endswith pid (lit "-end").

(** The path ids recorded for nodes: all recorded ids but the ["-end"] ones. *)
Definition node_ids (lbs : list (list pystr)) : list pystr :=
  filter (fun pid => negb (is_end_id pid)) (concat lbs).

(** [x] continues [p] with a dash and more: the shape of the path ids below
    the node with id [p]. *)
Definition extends (p x : pystr) : Prop := exists r, x = p ++ lit "-" ++ r.

(** The recorded node ids and the ids on the work list are pairwise
    distinct, nothing recorded or pending lies below a pending node, and no
    pending id looks like the id of a terminal outcome. *)
Definition fresh_ids (recorded pending : list pystr) : Prop :=
  NoDup (recorded ++ pending) /\
  (forall p x, In p pending -> In x (recorded ++ pending) -> ~ extends p x) /\
  (forall p, In p pending -> is_end_id p = false).

(** [fresh_ids] while the children of the node with id [p] are being
    visited: what lies below [p] are its children numbered below [b]. *)
Definition visiting (p : pystr) (recorded pending : list pystr) (b : Z)
  : Prop :=
  fresh_ids recorded pending /\
  In p recorded /\
  0 <= b /\
  (forall x, In x (recorded ++ pending) -> extends p x ->
             exists j, 0 <= j < b /\ x = child_id p j).

(** Every link starts at a registered event and ends at a registered event
    or at a node that is still on the work list. *)
Definition linked (work : list Node) (evs : list json) (lks : list Link)
  : Prop :=
  forall l, In l lks ->
    py_in (JStr (link_event l)) evs = true /\
    (py_in (link_children l) evs = true \/
     exists n, In n work /\ link_children l = JStr (name n)).

(** The sub-trees on the work list are values a decoder produces. *)
Definition wf_work (work : list Node) : Prop :=
  forall n, In n work -> wf_json (children n) = true.

(** The entries of the nested mappings among the outcomes [items] of a
    node, in order. *)
Definition nested_entries (items : dict) : dict :=
  flat_map (fun kv => match snd kv with JDict d => d | _ => [] end) items.

(** The child of [node] for the entry [(ev, outcomes)], numbered [idx]. *)
Definition child (node : Node) (entry : Z * (pystr * json)) : Node :=
  let '(idx, (ev, outcomes)) := entry in
  mkNode ev outcomes (child_id (id node) idx).

(** Children numbered by one counter that runs over all the nested mappings
    of the node. *)
Definition pushed_running (node : Node) (items : dict) : list Node :=
  map (child node) (enumerate (nested_entries items)).

(** Following the specification's words: children numbered from 0 again in
    every nested mapping. *)
Definition pushed_local_index (node : Node) (items : dict) : list Node :=
  flat_map (fun kv => match snd kv with
                      | JDict d => map (child node) (enumerate d)
                      | _ => []
                      end) items.

(** Total size of the sub-trees still on the work list. *)
Definition work_size (work : list Node) : nat :=
  list_sum (map (fun n => json_size (children n)) work).

Definition dict_size (d : dict) : nat :=
  list_sum (map (fun kv => json_size (snd kv)) d).

(** ** Shape and size of a story *)

(** The value of an event is a mapping from options to outcomes, and every
    event inside a nested outcome is again such a value: what
    [node.children.items()] needs at every node the walk reaches. *)
Fixpoint node_ok (children : json) : bool :=
  match children with
  | JDict opts =>
      forallb (fun kv => match snd kv with
                         | JDict d => forallb (fun ev => node_ok (snd ev)) d
                         | _ => true
                         end) opts
  | _ => false
  end.

(** The largest number of top-level events [chr(ord("A") + idx)] can name. *)
Definition max_top_level : Z := 1114047.

(** How [flatten] answers a document. *)
Inductive verdict : Set :=
| NoStory        (* the triple of [None]s *)
| TooManyEvents  (* [ValueError] from [chr] *)
| BadShape       (* [AttributeError] from [items] *)
| Story.         (* a graph *)

Definition classify (story_data : json) : verdict :=
  match story_data with
  | JDict (kv :: items) =>
      if max_top_level <? len (kv :: items) then TooManyEvents
      else if forallb (fun kv => node_ok (snd kv)) (kv :: items) then Story
      else BadShape
  | _ => NoStory
  end.

(** The option edges below the value of an event: one per terminal outcome
    and one per event of a nested outcome, and those below these events. *)
Fixpoint edges (children : json) : nat :=
  match children with
  | JDict opts =>
      list_sum
        (map (fun kv => match snd kv with
                        | JDict d =>
                            list_sum (map (fun ev => S (edges (snd ev))) d)
                        | _ => 1%nat
                        end) opts)
  | _ => 0%nat
  end.

(** The option edges of a document. *)
Definition edge_count (story_data : json) : nat :=
  match story_data with
  | JDict items => list_sum (map (fun kv => edges (snd kv)) items)
  | _ => 0%nat
  end.

(** The option edges below the nodes of the work list. *)
Definition work_edges (work : list Node) : nat :=
  list_sum (map (fun n => edges (children n)) work).

(** No entry of [evs] is equal ([==]) to an entry before it. *)
Definition py_distinct (evs : list json) : Prop :=
  forall pre y post, evs = pre ++ y :: post -> py_in y pre = false.

(** Every ["-end"] path id in [lbs] is the id of a recorded node followed
    by ["-end"]. *)
Definition ends_traced (lbs : list (list pystr)) : Prop :=
  forall x, In x (concat lbs) -> is_end_id x = true ->
    exists p, In p (node_ids lbs) /\ x = end_id p.

(** The code points after the first of a path id: a dash, a digit, or one of
    [e], [n], [d]. *)
Definition tail_char (c : Z) : Prop :=
  c = 45 \/ is_digit c \/ c = 101 \/ c = 110 \/ c = 100.

(** A path id under one of [n] top-level events: the letter of the event,
    then dashes, digits and ["end"]. *)
Definition path_id_of (n : Z) (x : pystr) : Prop :=
  exists idx rest,
    0 <= idx < n /\ x = (ord_A + idx) :: rest /\ Forall tail_char rest.

(** [events] starts with [e0] and the first entry of [labels] with [pid0]. *)
Definition starts_with (e0 : json) (pid0 : pystr)
    (evs : list json) (lbs : list (list pystr)) : Prop :=
  exists evs' l lbs', evs = e0 :: evs' /\ lbs = (pid0 :: l) :: lbs'.

(** The events of a document with top-level mapping [items]: the top-level
    ones, and those inside a nested outcome of an event. *)
Inductive event_of (items : dict) : pystr -> json -> Prop :=
| event_top ev c :
    In (ev, c) items -> event_of items ev c
| event_nested ev opts opt d ev' c' :
    event_of items ev (JDict opts) ->
    In (opt, JDict d) opts ->
    In (ev', c') d ->
    event_of items ev' c'.

(** [l] is an option edge of the document: its event has the option, and the
    target is the terminal outcome of that option, or the name of an event
    of its nested outcome. *)
Definition edge_of (items : dict) (l : Link) : Prop :=
  exists opts outcome,
    event_of items (link_event l) (JDict opts) /\
    In (link_option l, outcome) opts /\
    match outcome with
    | JDict d => exists ev c, In (ev, c) d /\ link_children l = JStr ev
    | _ => link_children l = outcome
    end.

(** [e] is the name of a top-level event of [items] or the target of one of
    the links [lks]. *)
Definition has_origin (items : dict) (lks : list Link) (e : json) : Prop :=
  (exists k c, In (k, c) items /\ e = JStr k) \/
  (exists l, In l lks /\ e = link_children l).

(** ** Occurrences of events *)

(** [events[i] == e] and [pid in labels[i]], for some [i]. *)
Definition registered (evs : list json) (lbs : list (list pystr))
    (e : json) (pid : pystr) : Prop :=
  exists i e' l,
    nth_error evs i = Some e' /\ py_eq e e' = true /\
    nth_error lbs i = Some l /\ In pid l.

(** The nodes of the top-level events, as line 66 builds them. *)
Definition top_nodes (items : dict) : list Node :=
  map (fun '(idx, (ev, outcomes)) => mkNode ev outcomes [ord_A + idx])
    (enumerate items).

(** The nodes of the walk below [n]: [n], and the numbered children of the
    nodes below [n]. *)
Inductive below (n : Node) : Node -> Prop :=
| below_self : below n n
| below_child m opts entry :
    below n m ->
    children m = JDict opts ->
    In entry (enumerate (nested_entries opts)) ->
    below n (child m entry).

(** The occurrences of events in a document: the nodes below its top-level
    nodes. *)
Definition occurs (items : dict) (m : Node) : Prop :=
  exists t, In t (top_nodes items) /\ below t m.

(** The node [m] and its terminal outcomes are registered. *)
Definition visited (evs : list json) (lbs : list (list pystr)) (m : Node)
  : Prop :=
  registered evs lbs (JStr (name m)) (id m) /\
  forall opts opt outcome,
    children m = JDict opts -> In (opt, outcome) opts ->
    isinstance_dict outcome = false -> py_eq outcome outcome = true ->
    registered evs lbs outcome (end_id (id m)).

(** Why the path id [p] stands in the label of the event [e]: [p] is the
    id of an occurrence named [e], or the id of an occurrence followed by
    ["-end"] where the occurrence has a terminal outcome equal to [e]. *)
Definition label_origin (items : dict) (e : json) (p : pystr) : Prop :=
  (exists m, occurs items m /\ p = id m /\ e = JStr (name m)) \/
  (exists m opts opt outcome,
      occurs items m /\ children m = JDict opts /\
      In (opt, outcome) opts /\ isinstance_dict outcome = false /\
      p = end_id (id m) /\ py_eq outcome e = true).

(** Every path id in [labels[i]] has its origin in [events[i]]. *)
Definition labels_sound (items : dict) (evs : list json)
    (lbs : list (list pystr)) : Prop :=
  forall i l p,
    nth_error lbs i = Some l -> In p l ->
    exists e, nth_error evs i = Some e /\ label_origin items e p.

(** The links of the options of [m] are in [lks]: one per terminal outcome,
    one per event of a nested outcome. *)
Definition options_linked (lks : list Link) (m : Node) : Prop :=
  forall opts opt outcome,
    children m = JDict opts -> In (opt, outcome) opts ->
    match outcome with
    | JDict d =>
        forall ev c, In (ev, c) d -> In (mkLink (name m) opt (JStr ev)) lks
    | _ => In (mkLink (name m) opt outcome) lks
    end.

(** ** Counting path ids *)

Definition pystr_eq_dec : forall s t : pystr, {s = t} + {s <> t} :=
  list_eq_dec Z.eq_dec.

(** The options of [opts] with a terminal outcome. *)
Definition terminal_count (opts : dict) : nat :=
  length (filter (fun kv => negb (isinstance_dict (snd kv))) opts).

(** The terminal outcomes of the event with value [children]. *)
Definition terminals (children : json) : nat :=
  match children with
  | JDict opts => terminal_count opts
  | _ => 0%nat
  end.

(** The occurrence [m] has been visited: its path id is recorded once, and
    its path id followed by ["-end"] once per terminal outcome. *)
Definition counted (lbs : list (list pystr)) (m : Node) : Prop :=
  In (id m) (node_ids lbs) /\
  count_occ pystr_eq_dec (concat lbs) (id m) = 1%nat /\
  count_occ pystr_eq_dec (concat lbs) (end_id (id m)) = terminals (children m).

(** The top-level mapping of [scenario1]. *)
Definition scenario1_items : dict :=
  [(lit "S", JDict [(lit "A", JStr (lit "E1")); (lit "B", JStr (lit "E2"))])].

(** The only occurrence of an event in [scenario1]. *)
Definition scenario1_root : Node :=
  mkNode (lit "S")
    (JDict [(lit "A", JStr (lit "E1")); (lit "B", JStr (lit "E2"))])
    (lit "A").

(** ** Inversion of monadic code *)

#[local] Arguments ord_A : simpl never.
#[local] Arguments lit : simpl never.
#[local] Arguments str_int : simpl never.
#[local] Arguments Z.add : simpl never.
#[local] Arguments child_id : simpl never.
#[local] Arguments end_id : simpl never.

Lemma bind_Ret {A B : Type} (m : res A) (k : A -> res B) (b : B) :
  bind m k = Ret b -> exists a, m = Ret a /\ k a = Ret b.
Proof.
  destruct m as [a | e |]; simpl; intros H; try discriminate.
  exists a. split; [reflexivity | exact H].
Qed.

(** Splits a hypothesis [bind m k = Ret b] into its two halves, repeatedly. *)
Ltac inv_bind H :=
  let a := fresh "a" in
  let Ha := fresh "Hm" in
  apply bind_Ret in H; destruct H as [a [Ha H]].

Lemma for_each_inv {S A : Type} (P : S -> Prop) (body : S -> A -> res S)
    (l : list A) :
  (forall s x s', In x l -> P s -> body s x = Ret s' -> P s') ->
  forall s s', P s -> for_each body s l = Ret s' -> P s'.
Proof.
  induction l as [| x l IH]; simpl; intros Hbody s s' Hs Hrun.
  - injection Hrun as <-. exact Hs.
  - inv_bind Hrun. apply (IH (fun s0 y s1 Hy => Hbody s0 y s1 (or_intror Hy)) a).
    + apply (Hbody s x a); auto.
    + exact Hrun.
Qed.

Lemma pop_snoc {A : Type} (l : list A) (x : A) : pop (l ++ [x]) = Some (l, x).
Proof.
  induction l as [| y l IH]; simpl; [reflexivity |].
  rewrite IH. reflexivity.
Qed.

Lemma pop_Some {A : Type} (l r : list A) (x : A) :
  pop l = Some (r, x) -> l = r ++ [x].
Proof.
  revert r. induction l as [| y l IH]; simpl; intros r H; [discriminate |].
  destruct (pop l) as [[r' z] |] eqn:E.
  - injection H as <- <-. simpl. f_equal. apply IH. reflexivity.
  - injection H as <- <-. destruct l as [| z l]; [reflexivity |].
    simpl in E. destruct (pop l) as [[? ?] |]; discriminate.
Qed.

Lemma pop_None {A : Type} (l : list A) : pop l = None -> l = [].
Proof.
  destruct l as [| y l]; simpl; [reflexivity |].
  destruct (pop l) as [[? ?] |]; discriminate.
Qed.

(** The loop invariant rule for [while nodes]. *)
Lemma while_nodes_inv (P : list Node -> graph -> Prop) :
  (forall node rest g work' g',
      P (rest ++ [node]) g -> visit node rest g = Ret (work', g') ->
      P work' g') ->
  forall fuel work g g',
    P work g -> while_nodes fuel work g = Ret g' -> P [] g'.
Proof.
  intros Hstep fuel. induction fuel as [| fuel IH]; intros work g g' HP Hrun;
    simpl in Hrun; destruct (pop work) as [[rest node] |] eqn:Epop;
    try discriminate.
  - apply pop_None in Epop. subst work. injection Hrun as <-. exact HP.
  - apply pop_Some in Epop. subst work. inv_bind Hrun.
    destruct a as [work' g1]. apply (IH work' g1 g'); [| exact Hrun].
    apply (Hstep node rest g); assumption.
  - apply pop_None in Epop. subst work. injection Hrun as <-. exact HP.
Qed.

(** What [record] does when it returns. *)
Lemma record_Ret nm pid evs lbs evs' lbs' :
  record nm pid evs lbs = Ret (evs', lbs') ->
  (py_in nm evs = false /\ evs' = evs ++ [nm] /\ lbs' = lbs ++ [[pid]]) \/
  (py_in nm evs = true /\ evs' = evs /\
   exists pre l post,
     lbs = pre ++ l :: post /\ lbs' = pre ++ (l ++ [pid]) :: post).
Proof.
  unfold record. destruct (py_in nm evs) eqn:Ein; simpl; intros H.
  - right. inv_bind H. inv_bind H. injection H as <- <-.
    unfold append_at in Hm0. destruct (nth_error lbs a) as [l |] eqn:El;
      [| discriminate].
    injection Hm0 as <-. repeat split; trivial.
    exists (firstn a lbs), l, (skipn (S a) lbs). split; [| reflexivity].
    symmetry. apply firstn_skipn_middle. exact El.
  - left. injection H as <- <-. auto.
Qed.

(** What [flatten] did when it returns a graph. *)
Lemma flatten_Some fuel story_data g :
  flatten fuel story_data = Ret (Some g) ->
  exists items work,
    story_data = JDict items /\ items <> [] /\
    comprehension
      (fun '(idx, (ev, outcomes)) =>
         c <- chr (ord_A + idx) ;; Ret (mkNode ev outcomes c))
      (enumerate items) = Ret work /\
    while_nodes fuel work ([], [], []) = Ret g.
Proof.
  unfold flatten. intros H.
  destruct story_data as [| b | n | s | l | d]; simpl in H;
    rewrite ?orb_true_r in H; try discriminate.
  destruct d as [| kv d]; simpl in H; [discriminate |].
  inv_bind H. inv_bind H. injection H as <-.
  exists (kv :: d), a. repeat split; try assumption. discriminate.
Qed.

(** ** Events and labels stay parallel *)

Lemma record_labelled nm pid evs lbs evs' lbs' :
  labelled evs lbs -> record nm pid evs lbs = Ret (evs', lbs') ->
  labelled evs' lbs'.
Proof.
  intros [Hlen Hne] H. apply record_Ret in H.
  destruct H as [[_ [-> ->]] | [_ [-> [pre [l [post [-> ->]]]]]]]; split.
  - rewrite !length_app, Hlen. reflexivity.
  - apply Forall_app. split; [exact Hne |]. constructor; [discriminate | constructor].
  - rewrite Hlen, !length_app. reflexivity.
  - apply Forall_app in Hne. destruct Hne as [H1 H2]. apply Forall_app.
    split; [exact H1 |]. inversion H2; subst. constructor; [| assumption].
    destruct l; discriminate.
Qed.

Lemma visit_option_labelled node s item s' :
  labelled (events s) (labels s) -> visit_option node s item = Ret s' ->
  labelled (events s') (labels s').
Proof.
  intros Hs H. destruct item as [opt outcome]. unfold visit_option in H.
  destruct outcome; try (injection H as <-; exact Hs);
    inv_bind H; destruct a as [evs' lbs']; injection H as <-; simpl;
    eapply record_labelled; eauto.
Qed.

Lemma visit_labelled node rest evs lbs lks work' evs' lbs' lks' :
  labelled evs lbs ->
  visit node rest (evs, lbs, lks) = Ret (work', (evs', lbs', lks')) ->
  labelled evs' lbs'.
Proof.
  intros Hl H. unfold visit in H. inv_bind H. destruct a as [evs1 lbs1].
  inv_bind H. inv_bind H. injection H as _ <- <- _.
  eapply (for_each_inv (fun s => labelled (events s) (labels s))); [| | exact Hm1].
  - intros s x s' _. apply visit_option_labelled.
  - simpl. eapply record_labelled; eauto.
Qed.

(** C5.  No orphan labels: when [flatten] returns a graph, [events] and
    [labels] have the same length and every entry of [labels] holds at least
    one path id. *)
Theorem flatten_no_orphan_labels fuel story_data evs lbs lks :
  flatten fuel story_data = Ret (Some (evs, lbs, lks)) ->
  length evs = length lbs /\ Forall (fun l => l <> []) lbs.
Proof.
  intros H. apply flatten_Some in H.
  destruct H as [items [work [_ [_ [_ Hrun]]]]].
  apply (while_nodes_inv (fun _ g => labelled (fst (fst g)) (snd (fst g))))
    in Hrun; [exact Hrun | | split; [reflexivity | constructor]].
  intros node rest [[e l] k] work' [[e' l'] k'] Hl Hv. simpl in *.
  eapply visit_labelled; eauto.
Qed.

Lemma flatten_no_orphan_labels_witness :
  flatten 2 scenario3 = Ret (Some scenario3_graph) /\
  length (fst (fst scenario3_graph)) = length (snd (fst scenario3_graph)) /\
  Forall (fun l => l <> []) (snd (fst scenario3_graph)).
Proof.
  split; [vm_compute; reflexivity |].
  apply (flatten_no_orphan_labels 2 scenario3 _ _ (snd scenario3_graph)).
  vm_compute. reflexivity.
Defined.

(** ** Iterations *)

Lemma bind_not_Fuel {A B : Type} (m : res A) (k : A -> res B) :
  m <> Fuel -> (forall a, m = Ret a -> k a <> Fuel) -> bind m k <> Fuel.
Proof.
  destruct m as [a | e |]; simpl; intros Hm Hk.
  - apply Hk. reflexivity.
  - discriminate.
  - contradiction Hm. reflexivity.
Qed.

Lemma py_index_not_Fuel x l : py_index x l <> Fuel.
Proof.
  induction l as [| e l IH]; simpl; [discriminate |].
  destruct (py_eq x e); [discriminate |].
  apply bind_not_Fuel; [exact IH | discriminate].
Qed.

Lemma record_not_Fuel nm pid evs lbs : record nm pid evs lbs <> Fuel.
Proof.
  unfold record. destruct (negb (py_in nm evs)); [discriminate |].
  apply bind_not_Fuel; [apply py_index_not_Fuel |]. intros i _.
  apply bind_not_Fuel; [| discriminate].
  unfold append_at. destruct (nth_error lbs i); discriminate.
Qed.

Lemma visit_option_not_Fuel node s item : visit_option node s item <> Fuel.
Proof.
  destruct item as [opt outcome]. unfold visit_option.
  destruct outcome; try discriminate;
    (apply bind_not_Fuel; [apply record_not_Fuel | intros [? ?] _; discriminate]).
Qed.

Lemma for_each_not_Fuel {S A : Type} (body : S -> A -> res S) (l : list A) :
  (forall s x, body s x <> Fuel) -> forall s, for_each body s l <> Fuel.
Proof.
  intros Hbody. induction l as [| x l IH]; simpl; intros s; [discriminate |].
  apply bind_not_Fuel; [apply Hbody | intros; apply IH].
Qed.

Lemma visit_not_Fuel node rest g : visit node rest g <> Fuel.
Proof.
  destruct g as [[evs lbs] lks]. unfold visit.
  apply bind_not_Fuel; [apply record_not_Fuel | intros [evs1 lbs1] _].
  apply bind_not_Fuel; [destruct (children node); discriminate | intros items _].
  apply bind_not_Fuel; [| discriminate].
  apply for_each_not_Fuel. apply visit_option_not_Fuel.
Qed.

Lemma comprehension_not_Fuel {A B : Type} (f : A -> res B) (l : list A) :
  (forall x, f x <> Fuel) -> comprehension f l <> Fuel.
Proof.
  intros Hf. induction l as [| x l IH]; simpl; [discriminate |].
  apply bind_not_Fuel; [apply Hf | intros y _].
  apply bind_not_Fuel; [exact IH | discriminate].
Qed.

(** A run that ended keeps its result when it is allowed more iterations. *)
Lemma while_nodes_more_fuel fuel :
  forall fuel' work g r,
    while_nodes fuel work g = r -> r <> Fuel -> (fuel <= fuel')%nat ->
    while_nodes fuel' work g = r.
Proof.
  induction fuel as [| fuel IH]; intros fuel' work g r Hrun Hr Hle.
  - destruct fuel' as [| fuel']; [exact Hrun |]. simpl in *.
    destruct (pop work) as [[rest node] |]; [| exact Hrun].
    subst r. contradiction.
  - destruct fuel' as [| fuel']; [lia |]. simpl in *.
    destruct (pop work) as [[rest node] |]; [| exact Hrun].
    destruct (visit node rest g) as [[work' g'] | e |]; simpl in *;
      try exact Hrun.
    apply (IH fuel' work' g' r Hrun Hr). lia.
Qed.

Lemma flatten_more_fuel fuel fuel' story_data r :
  flatten fuel story_data = r -> r <> Fuel -> (fuel <= fuel')%nat ->
  flatten fuel' story_data = r.
Proof.
  unfold flatten. intros Hrun Hr Hle.
  destruct (negb (truthy story_data) || negb (isinstance_dict story_data));
    [exact Hrun |].
  destruct (py_items story_data) as [items | e |]; simpl in *; try exact Hrun.
  destruct (comprehension _ (enumerate items)) as [work | e |]; simpl in *;
    try exact Hrun.
  destruct (while_nodes fuel work ([], [], [])) as [g | e |] eqn:Ew;
    simpl in Hrun.
  - rewrite (while_nodes_more_fuel fuel fuel' work _ (Ret g) Ew); auto.
    discriminate.
  - rewrite (while_nodes_more_fuel fuel fuel' work _ (Raise e) Ew); auto.
    discriminate.
  - subst r. contradiction.
Qed.

(** ** Termination *)

Lemma work_size_app w1 w2 : work_size (w1 ++ w2) = (work_size w1 + work_size w2)%nat.
Proof. unfold work_size. rewrite map_app, list_sum_app. reflexivity. Qed.

Lemma work_size_pushed (f : Z -> pystr) (d : dict) i :
  work_size (map (fun '(idx, (ev, outcomes)) => mkNode ev outcomes (f idx))
               (enumerate_from i d)) = dict_size d.
Proof.
  revert i. induction d as [| [k v] d IH]; intros i; [reflexivity |].
  unfold work_size, dict_size in *. simpl. rewrite IH. reflexivity.
Qed.

(** The top-level nodes are the entries of the document, in order, with the
    one-character ids [chr(ord("A") + idx)]. *)
Lemma top_level_nodes items i work :
  comprehension
    (fun '(idx, (ev, outcomes)) =>
       c <- chr (ord_A + idx) ;; Ret (mkNode ev outcomes c))
    (enumerate_from i items) = Ret work ->
  work = map (fun '(idx, (ev, outcomes)) => mkNode ev outcomes [ord_A + idx])
           (enumerate_from i items).
Proof.
  revert i work. induction items as [| [k v] items IH]; simpl; intros i work H.
  - injection H as <-. reflexivity.
  - inv_bind H. inv_bind H. injection H as <-.
    inv_bind Hm. injection Hm as <-. unfold chr in Hm1.
    match type of Hm1 with
    | (if ?c then _ else _) = _ => destruct c; [| discriminate]
    end.
    injection Hm1 as <-. f_equal. apply IH. exact Hm0.
Qed.

Lemma visit_option_work node s item s' :
  visit_option node s item = Ret s' ->
  (work_size (nodes s') < work_size (nodes s) + S (json_size (snd item)))%nat.
Proof.
  destruct item as [opt outcome]. unfold visit_option. intros H.
  destruct outcome as [| b | n | t | l | d];
    try (inv_bind H; destruct a as [evs' lbs']; injection H as <-; simpl; lia).
  injection H as <-. cbn [nodes snd json_size]. unfold enumerate.
  rewrite work_size_app.
  rewrite (work_size_pushed
             (fun idx => child_id (id node) (idx + branch_idx s))).
  unfold dict_size. lia.
Qed.

Lemma for_each_work node items :
  forall s s',
    for_each (visit_option node) s items = Ret s' ->
    (work_size (nodes s') <= work_size (nodes s) + dict_size items)%nat.
Proof.
  induction items as [| item items IH]; simpl; intros s s' H.
  - injection H as <-. lia.
  - inv_bind H. apply visit_option_work in Hm. apply IH in H.
    unfold dict_size in *. simpl. lia.
Qed.

(** Each iteration replaces the popped node by nodes built from strict
    sub-trees of its children. *)
Lemma visit_decreases node rest g work' g' :
  visit node rest g = Ret (work', g') ->
  (work_size work' < work_size (rest ++ [node]))%nat.
Proof.
  destruct g as [[evs lbs] lks]. unfold visit. intros H.
  inv_bind H. destruct a as [evs1 lbs1]. inv_bind H. inv_bind H.
  injection H as <- _. apply for_each_work in Hm1. simpl in Hm1.
  rewrite work_size_app. unfold work_size at 3. simpl.
  destruct (children node); try discriminate. injection Hm0 as <-.
  simpl. fold (dict_size d). lia.
Qed.

Lemma work_size_snoc_pos rest node : (0 < work_size (rest ++ [node]))%nat.
Proof.
  rewrite work_size_app. unfold work_size at 2. simpl.
  destruct (children node); simpl; lia.
Qed.

Lemma while_nodes_enough fuel :
  forall work g, (work_size work <= fuel)%nat -> while_nodes fuel work g <> Fuel.
Proof.
  induction fuel as [| fuel IH]; intros work g Hle; simpl;
    destruct (pop work) as [[rest node] |] eqn:Epop; try discriminate.
  - apply pop_Some in Epop. subst work.
    pose proof (work_size_snoc_pos rest node). lia.
  - apply pop_Some in Epop. subst work.
    apply bind_not_Fuel; [apply visit_not_Fuel |].
    intros [work' g'] Hv. apply IH. apply visit_decreases in Hv. lia.
Qed.

(** C10.  The flattener terminates: for every document there is a result
    (a graph, the failure value or an exception) that [flatten] returns as
    soon as the loop is allowed [enough story_data] iterations, the size of
    the document; the work list shrinks, in total size of its sub-trees, at
    every iteration. *)
Theorem flatten_terminates story_data :
  exists r, r <> Fuel /\
    forall fuel, (enough story_data <= fuel)%nat -> flatten fuel story_data = r.
Proof.
  exists (flatten (enough story_data) story_data).
  assert (Hfin : flatten (enough story_data) story_data <> Fuel).
  { unfold flatten.
    destruct (negb (truthy story_data) || negb (isinstance_dict story_data));
      [discriminate |].
    destruct story_data as [| b | n | t | l | d]; cbn [py_items bind];
      try discriminate.
    apply bind_not_Fuel.
    { apply comprehension_not_Fuel. intros [idx [ev outcomes]].
      apply bind_not_Fuel; [| discriminate].
      unfold chr. destruct (_ && _); discriminate. }
    intros work Hwork. apply bind_not_Fuel; [| discriminate].
    apply while_nodes_enough. apply top_level_nodes in Hwork. subst work.
    rewrite (work_size_pushed (fun idx => [ord_A + idx])).
    unfold enough. cbn [json_size]. fold (dict_size d). lia. }
  split; [exact Hfin |].
  intros fuel Hle. apply (flatten_more_fuel (enough story_data)); auto.
Qed.

(** The graph [flatten] returns does not depend on the number of iterations
    the loop was allowed. *)
Lemma flatten_fuel_independent fuel1 fuel2 story_data g1 g2 :
  flatten fuel1 story_data = Ret (Some g1) ->
  flatten fuel2 story_data = Ret (Some g2) ->
  g1 = g2.
Proof.
  intros H1 H2. destruct (Nat.le_ge_cases fuel1 fuel2) as [Hle | Hle].
  - apply (flatten_more_fuel fuel1 fuel2) in H1; [| discriminate | exact Hle].
    rewrite H1 in H2. injection H2 as <-. reflexivity.
  - apply (flatten_more_fuel fuel2 fuel1) in H2; [| discriminate | exact Hle].
    rewrite H1 in H2. injection H2 as <-. reflexivity.
Qed.

(** ** The scenarios of the specification *)

(** C2 (as the code has it).  For [{"S": {"A": "E1", "B": "E2"}}] the
    flattener returns events [S, E1, E2], links [(S,A,E1), (S,B,E2)] and
    labels [[A], [A-end], [A-end]]: a terminal outcome is labelled with the
    path id of its parent node followed by [-end], whatever the option. *)
Theorem flatten_scenario1 fuel :
  flatten (S fuel) scenario1 = Ret (Some scenario1_graph).
Proof.
  apply (flatten_more_fuel 1); [vm_compute; reflexivity | discriminate | lia].
Qed.

(** Counterexample to C2 as stated: no run returns the label [B-end] for
    [E2]. *)
Lemma flatten_scenario1_not_expected :
  ~ exists fuel, flatten fuel scenario1 = Ret (Some scenario1_expected).
Proof.
  intros [[| fuel] H].
  - vm_compute in H. discriminate H.
  - rewrite (flatten_more_fuel 1 (S fuel) scenario1 (Ret (Some scenario1_graph)))
      in H; [| vm_compute; reflexivity | discriminate | lia].
    vm_compute in H. discriminate H.
Qed.

(** C7.  For [{"S": {"A": {"S": {"B": "E1"}}}}] the flattener returns
    events [S, E1], and the first entry of labels holds two distinct path
    ids, one per occurrence of [S]. *)
Theorem flatten_scenario3 fuel :
  exists lbs lks,
    flatten (S (S fuel)) scenario3 =
      Ret (Some ([JStr (lit "S"); JStr (lit "E1")], lbs, lks)) /\
    exists p q, p <> q /\ In p (nth 0 lbs []) /\ In q (nth 0 lbs []).
Proof.
  exists (snd (fst scenario3_graph)), (snd scenario3_graph).
  split.
  { apply (flatten_more_fuel 2); [vm_compute; reflexivity | discriminate | lia]. }
  exists (lit "A"), (lit "A-0"). split; [discriminate |].
  split; simpl; auto.
Qed.

(** ** The root check *)

Lemma flatten_root_check fuel story_data :
  (forall d, story_data = JDict d -> d = []) ->
  flatten fuel story_data = Ret None.
Proof.
  intros Hroot. unfold flatten.
  destruct story_data as [| b | n | s | l | d]; simpl;
    rewrite ?orb_true_r; try reflexivity.
  rewrite (Hroot d eq_refl). reflexivity.
Qed.

(** C6.  A document whose top-level value is not a non-empty mapping is
    answered with the failure value [(None, None, None)]: no events, labels
    or links are produced, whatever the value is. *)
Theorem flatten_rejects_root fuel story_data :
  (forall d, story_data = JDict d -> d = []) ->
  flatten fuel story_data = Ret None.
Proof. apply flatten_root_check. Qed.

Lemma flatten_rejects_root_witness :
  flatten 0 (JDict []) = Ret None /\ flatten 0 (JList [JInt 1]) = Ret None.
Proof.
  split.
  - apply (flatten_rejects_root 0 (JDict [])).
    intros d H. injection H as <-. reflexivity.
  - apply (flatten_rejects_root 0 (JList [JInt 1])).
    intros d H. discriminate H.
Defined.

(** Text that does not decode is answered with the format error. *)
Lemma preview_decode_error json_loads fuel content :
  json_loads content = Raise JSONDecodeError ->
  preview json_loads fuel content = Ret FormatError.
Proof.
  intros H. unfold preview, check_json_health. rewrite H. reflexivity.
Qed.

(** So is a document whose root is not a non-empty mapping. *)
Lemma preview_bad_root json_loads fuel content story_data :
  json_loads content = Ret story_data ->
  (forall d, story_data = JDict d -> d = []) ->
  preview json_loads fuel content = Ret FormatError.
Proof.
  intros H Hroot. unfold preview, check_json_health, parse_story. rewrite H.
  cbn [bind negb]. rewrite (flatten_root_check fuel story_data Hroot).
  reflexivity.
Qed.

(** C8 (the code departs from it).  A document that decodes to
    [{"S": "x"}] passes [check_json_health] and the root check of
    [parse_story]; the page then stops with an uncaught [AttributeError],
    raised by [node.children.items()] on the string ["x"], instead of the
    format error. *)
Theorem preview_string_valued json_loads fuel content :
  json_loads content = Ret string_valued ->
  check_json_health json_loads content = Ret true /\
  preview json_loads (S fuel) content = Raise AttributeError.
Proof.
  intros H. unfold preview, parse_story, check_json_health. rewrite H.
  split; [reflexivity |]. cbn [bind negb].
  rewrite (flatten_more_fuel 1 (S fuel) string_valued (Raise AttributeError));
    [reflexivity | vm_compute; reflexivity | discriminate | lia].
Qed.

Lemma preview_string_valued_witness :
  loads_string_valued string_valued_text = Ret string_valued /\
  check_json_health loads_string_valued string_valued_text = Ret true /\
  preview loads_string_valued 1 string_valued_text = Raise AttributeError.
Proof.
  split; [reflexivity |].
  apply (preview_string_valued loads_string_valued 0 string_valued_text).
  reflexivity.
Defined.

(** ** Numbering of the children *)

Lemma enumerate_from_app {A : Type} (l1 l2 : list A) i :
  enumerate_from i (l1 ++ l2) =
  enumerate_from i l1 ++ enumerate_from (i + len l1) l2.
Proof.
  revert i. induction l1 as [| x l1 IH]; intros i; simpl.
  - unfold len. simpl. rewrite Z.add_0_r. reflexivity.
  - rewrite IH. do 3 f_equal. unfold len. simpl length. lia.
Qed.

(** [idx + branch_idx] over [enumerate(outcome)] counts from [branch_idx]. *)
Lemma pushed_shift node (d : dict) b i :
  map (fun '(idx, (ev, outcomes)) =>
         mkNode ev outcomes (child_id (id node) (idx + b)))
      (enumerate_from i d) =
  map (child node) (enumerate_from (i + b) d).
Proof.
  revert i. induction d as [| [k v] d IH]; intros i; simpl; [reflexivity |].
  rewrite IH. replace (i + 1 + b) with (i + b + 1) by lia. reflexivity.
Qed.

Lemma visit_option_pushed node s opt outcome s' :
  visit_option node s (opt, outcome) = Ret s' ->
  nodes s' =
    nodes s ++ map (child node)
                 (enumerate_from (branch_idx s) (nested_entries [(opt, outcome)])) /\
  branch_idx s' = branch_idx s + len (nested_entries [(opt, outcome)]).
Proof.
  unfold visit_option, nested_entries. cbn [flat_map snd]. intros H.
  destruct outcome as [| b | n | t | l | d];
    try (inv_bind H; destruct a as [evs' lbs']; injection H as <-;
         cbn [nodes branch_idx enumerate_from map app len length];
         rewrite app_nil_r; split; [reflexivity | unfold len; simpl; lia]).
  injection H as <-. cbn [nodes branch_idx]. unfold enumerate.
  rewrite pushed_shift, Z.add_0_l, app_nil_r. split; reflexivity.
Qed.

Lemma for_each_pushed node items :
  forall s s',
    for_each (visit_option node) s items = Ret s' ->
    nodes s' =
      nodes s ++ map (child node)
                   (enumerate_from (branch_idx s) (nested_entries items)) /\
    branch_idx s' = branch_idx s + len (nested_entries items).
Proof.
  induction items as [| [opt outcome] items IH]; cbn [for_each]; intros s s' H.
  - injection H as <-. rewrite app_nil_r. unfold len. simpl. split; [auto | lia].
  - inv_bind H. apply IH in H. destruct H as [Hn Hb].
    apply visit_option_pushed in Hm. destruct Hm as [Hn1 Hb1].
    rewrite Hn, Hb, Hn1, Hb1.
    replace (nested_entries ((opt, outcome) :: items))
      with (nested_entries [(opt, outcome)] ++ nested_entries items)
      by (unfold nested_entries; cbn [flat_map]; rewrite app_nil_r; reflexivity).
    rewrite enumerate_from_app, map_app, <- app_assoc.
    unfold len. rewrite length_app. split; [reflexivity | lia].
Qed.

(** C1 (as the code has it).  The children pushed while a node is visited
    are numbered by one counter: it starts at 0 for the node and runs on
    through all its nested mappings, so the child for the [k]-th entry,
    counted over all of them, gets [node.id + "-" + str(k)]. *)
Theorem visit_pushes_running node rest g work' g' :
  visit node rest g = Ret (work', g') ->
  exists items,
    children node = JDict items /\
    work' = rest ++ pushed_running node items.
Proof.
  destruct g as [[evs lbs] lks]. unfold visit. intros H.
  inv_bind H. destruct a as [evs1 lbs1]. inv_bind H. inv_bind H.
  injection H as <- _. exists a. split.
  - destruct (children node); try discriminate. injection Hm0 as <-.
    reflexivity.
  - apply for_each_pushed in Hm1. destruct Hm1 as [Hn _]. exact Hn.
Qed.

Lemma visit_pushes_running_witness :
  visit two_branches_root [] ([], [], []) =
    Ret (pushed_running two_branches_root two_branches_items,
         ([JStr (lit "S")], [[lit "A"]],
          [mkLink (lit "S") (lit "A") (JStr (lit "T"));
           mkLink (lit "S") (lit "B") (JStr (lit "U"))])) /\
  exists items,
    children two_branches_root = JDict items /\
    pushed_running two_branches_root two_branches_items =
    [] ++ pushed_running two_branches_root items.
Proof.
  split; [vm_compute; reflexivity |].
  apply (visit_pushes_running two_branches_root [] ([], [], []) _
           ([JStr (lit "S")], [[lit "A"]],
            [mkLink (lit "S") (lit "A") (JStr (lit "T"));
             mkLink (lit "S") (lit "B") (JStr (lit "U"))])).
  vm_compute. reflexivity.
Defined.

(** Counterexample to C1 as stated: in [two_branches] the node [S] has two
    nested mappings; the child of the second one is numbered 1 ([A-1]), not
    0 again, in the iteration that visits [S] and in the labels [flatten]
    returns. *)
Lemma visit_not_local_index :
  flatten 3 two_branches = Ret (Some two_branches_graph) /\
  exists work' g',
    visit two_branches_root [] ([], [], []) = Ret (work', g') /\
    map id work' = [lit "A-0"; lit "A-1"] /\
    map id (pushed_local_index two_branches_root two_branches_items) =
      [lit "A-0"; lit "A-0"] /\
    work' <> [] ++ pushed_local_index two_branches_root two_branches_items.
Proof.
  split; [vm_compute; reflexivity |].
  eexists. eexists.
  split; [vm_compute; reflexivity |].
  split; [vm_compute; reflexivity |]. split; [vm_compute; reflexivity |].
  vm_compute. discriminate.
Qed.

(** ** Completeness of the events *)

Lemma str_eqb_refl s : str_eqb s s = true.
Proof.
  induction s as [| a s IH]; simpl; [reflexivity |].
  rewrite Z.eqb_refl. exact IH.
Qed.

Lemma str_eqb_eq s t : str_eqb s t = true -> s = t.
Proof.
  revert t. induction s as [| a s IH]; intros [| b t]; simpl; intros H;
    try discriminate; [reflexivity |].
  apply andb_true_iff in H. destruct H as [Hab Hst].
  apply Z.eqb_eq in Hab. f_equal; auto.
Qed.

Lemma in_list_sum {A : Type} (f : A -> nat) (x : A) (l : list A) :
  In x l -> (f x <= list_sum (map f l))%nat.
Proof.
  induction l as [| y l IH]; simpl; intros H; [contradiction |].
  destruct H as [-> | H]; [lia | apply IH in H; lia].
Qed.

Lemma all2_refl {A : Type} (f : A -> A -> bool) (l : list A) :
  (forall x, In x l -> f x x = true) -> all2 f l l = true.
Proof.
  induction l as [| x l IH]; simpl; intros H; [reflexivity |].
  rewrite (H x (or_introl eq_refl)). simpl. apply IH. auto.
Qed.

Lemma dict_get_no_dup d :
  no_dup_keys d = true ->
  forall k v, In (k, v) d -> dict_get k d = Some v.
Proof.
  induction d as [| [k' v'] d IH]; simpl; intros Hnd k v Hin; [contradiction |].
  destruct (dict_get k' d) as [w |] eqn:Eg; [discriminate |].
  destruct Hin as [Heq | Hin].
  - injection Heq as -> ->. rewrite str_eqb_refl. reflexivity.
  - destruct (str_eqb k k') eqn:Ek.
    + apply str_eqb_eq in Ek. subst k'.
      rewrite (IH Hnd k v Hin) in Eg. discriminate.
    + apply IH; assumption.
Qed.

(** On decoded values [==] is reflexive. *)
Lemma py_eq_refl j : wf_json j = true -> py_eq j j = true.
Proof.
  remember (json_size j) as n eqn:Hn. revert j Hn.
  induction n as [n IH] using lt_wf_ind. intros j Hn Hwf.
  destruct j as [| b | z | s | l | d]; simpl in *.
  - reflexivity.
  - apply Bool.eqb_reflx.
  - apply Z.eqb_refl.
  - apply str_eqb_refl.
  - apply all2_refl. intros x Hx.
    apply (IH (json_size x)); [| reflexivity |].
    + pose proof (in_list_sum json_size x l Hx). lia.
    + rewrite forallb_forall in Hwf. auto.
  - apply andb_true_iff in Hwf. destruct Hwf as [Hnd Hall].
    rewrite Nat.eqb_refl. simpl. apply forallb_forall. intros [k v] Hkv.
    simpl. rewrite (dict_get_no_dup d Hnd k v Hkv).
    apply (IH (json_size v)); [| reflexivity |].
    + pose proof (in_list_sum (fun kv => json_size (snd kv)) (k, v) d Hkv).
      simpl in *. lia.
    + rewrite forallb_forall in Hall. apply (Hall (k, v) Hkv).
Qed.

(** For a string, [in] is membership in the list. *)
Lemma py_in_JStr s evs : py_in (JStr s) evs = true <-> In (JStr s) evs.
Proof.
  unfold py_in. rewrite existsb_exists. split.
  - intros [e [He Heq]]. destruct e; simpl in Heq; try discriminate.
    apply str_eqb_eq in Heq. subst. exact He.
  - intros H. exists (JStr s). split; [exact H |]. simpl. apply str_eqb_refl.
Qed.

Lemma py_in_app x l1 l2 : py_in x (l1 ++ l2) = py_in x l1 || py_in x l2.
Proof. apply existsb_app. Qed.

Lemma record_events nm pid evs lbs evs' lbs' :
  record nm pid evs lbs = Ret (evs', lbs') ->
  (forall x, py_in x evs = true -> py_in x evs' = true) /\
  (py_eq nm nm = true -> py_in nm evs' = true).
Proof.
  intros H. apply record_Ret in H.
  destruct H as [[Hin [-> _]] | [Hin [-> _]]]; split; auto.
  - intros x Hx. rewrite py_in_app, Hx. reflexivity.
  - intros Hrefl. rewrite py_in_app. simpl. rewrite Hrefl.
    rewrite orb_true_r. reflexivity.
Qed.

Lemma linked_grow work work' evs evs' lks :
  linked work evs lks ->
  (forall n, In n work -> In n work') ->
  (forall x, py_in x evs = true -> py_in x evs' = true) ->
  linked work' evs' lks.
Proof.
  intros Hl Hw He l Hin. destruct (Hl l Hin) as [Hs Ht]. split; [auto |].
  destruct Ht as [Ht | [n [Hn Heq]]]; [left; auto | right; exists n; auto].
Qed.

(** The two branches of [visit_option]. *)
Lemma visit_option_terminal node s opt outcome s' :
  isinstance_dict outcome = false ->
  visit_option node s (opt, outcome) = Ret s' ->
  exists evs' lbs',
    record outcome (end_id (id node)) (events s) (labels s) = Ret (evs', lbs') /\
    s' = {| links := links s ++ [mkLink (name node) opt outcome];
            nodes := nodes s;
            branch_idx := branch_idx s;
            events := evs';
            labels := lbs' |}.
Proof.
  unfold visit_option. intros Hd H.
  destruct outcome; try discriminate Hd;
    inv_bind H; destruct a as [evs' lbs']; injection H as <-;
    exists evs', lbs'; split; auto.
Qed.

Lemma in_enumerate_from {A : Type} (l : list A) i j (x : A) :
  In (j, x) (enumerate_from i l) -> In x l.
Proof.
  revert i. induction l as [| y l IH]; simpl; intros i H; [contradiction |].
  destruct H as [H | H]; [injection H as _ ->; auto | eauto].
Qed.

Lemma enumerate_from_in {A : Type} (l : list A) i (x : A) :
  In x l -> exists j, In (j, x) (enumerate_from i l).
Proof.
  revert i. induction l as [| y l IH]; simpl; intros i H; [contradiction |].
  destruct H as [-> | H]; [exists i; auto |].
  destruct (IH (i + 1) H) as [j Hj]. exists j. auto.
Qed.

Lemma wf_json_entry d k v :
  wf_json (JDict d) = true -> In (k, v) d -> wf_json v = true.
Proof.
  simpl. intros H Hin. apply andb_true_iff in H. destruct H as [_ H].
  rewrite forallb_forall in H. apply (H (k, v) Hin).
Qed.

Lemma visit_option_linked node s item s' :
  wf_json (snd item) = true ->
  wf_work (nodes s) /\ linked (nodes s) (events s) (links s) /\
    py_in (JStr (name node)) (events s) = true ->
  visit_option node s item = Ret s' ->
  wf_work (nodes s') /\ linked (nodes s') (events s') (links s') /\
    py_in (JStr (name node)) (events s') = true.
Proof.
  destruct item as [opt outcome]. cbn [snd]. intros Hwf [Hw [Hl Hin]] H.
  destruct (isinstance_dict outcome) eqn:Ed.
  - destruct outcome as [| | | | | d]; try discriminate Ed.
    injection H as <-. cbn [nodes events links]. split; [| split; [| exact Hin]].
    + intros n Hn. apply in_app_or in Hn. destruct Hn as [Hn | Hn]; [auto |].
      apply in_map_iff in Hn. destruct Hn as [[idx [ev o]] [<- Hn]].
      apply in_enumerate_from in Hn. simpl. eapply wf_json_entry; eauto.
    + intros l Hlk. apply in_app_or in Hlk. destruct Hlk as [Hlk | Hlk].
      * destruct (Hl l Hlk) as [Hs Ht]. split; [exact Hs |].
        destruct Ht as [Ht | [n [Hn Heq]]]; [left; exact Ht |].
        right. exists n. split; [apply in_or_app; auto | exact Heq].
      * apply in_map_iff in Hlk. destruct Hlk as [[ev o] [<- Hkv]]. simpl.
        split; [exact Hin |]. right.
        destruct (enumerate_from_in d 0 (ev, o) Hkv) as [j Hj].
        exists (mkNode ev o (child_id (id node) (j + branch_idx s))).
        split; [| reflexivity]. apply in_or_app. right.
        apply in_map_iff. exists (j, (ev, o)). split; [reflexivity | exact Hj].
  - apply visit_option_terminal in H; [| exact Ed].
    destruct H as [evs' [lbs' [Hrec ->]]]. cbn [nodes events links].
    apply record_events in Hrec. destruct Hrec as [Hmono Hnew].
    split; [exact Hw |]. split; [| auto].
    intros l Hlk. apply in_app_or in Hlk. destruct Hlk as [Hlk | Hlk].
    + apply (linked_grow (nodes s) (nodes s) (events s) evs' (links s)); auto.
    + destruct Hlk as [<- | []]. simpl. split; [auto |]. left.
      apply Hnew. apply py_eq_refl. exact Hwf.
Qed.

Lemma visit_linked node rest g work' g' :
  wf_work (rest ++ [node]) /\
    linked (rest ++ [node]) (fst (fst g)) (snd g) ->
  visit node rest g = Ret (work', g') ->
  wf_work work' /\ linked work' (fst (fst g')) (snd g').
Proof.
  destruct g as [[evs lbs] lks]. cbn [fst snd]. intros [Hw Hl] H.
  unfold visit in H. inv_bind H. destruct a as [evs1 lbs1].
  inv_bind H. inv_bind H. injection H as <- <-. cbn [fst snd].
  apply record_events in Hm. destruct Hm as [Hmono Hnew].
  assert (Hname : py_in (JStr (name node)) evs1 = true).
  { apply Hnew. simpl. apply str_eqb_refl. }
  assert (Hitems : children node = JDict a).
  { destruct (children node); try discriminate. injection Hm0 as <-.
    reflexivity. }
  assert (Hwfc : wf_json (JDict a) = true).
  { rewrite <- Hitems. apply Hw. apply in_or_app. right. simpl. auto. }
  enough (Hfin : wf_work (nodes a0) /\
                 linked (nodes a0) (events a0) (links a0) /\
                 py_in (JStr (name node)) (events a0) = true).
  { destruct Hfin as [H1 [H2 _]]. auto. }
  eapply (for_each_inv
            (fun s => wf_work (nodes s) /\
                      linked (nodes s) (events s) (links s) /\
                      py_in (JStr (name node)) (events s) = true));
    [| | exact Hm1].
  - intros s [k v] s' Hx Hs Hbody.
    apply (visit_option_linked node s (k, v) s'); auto.
    simpl. eapply wf_json_entry; eauto.
  - cbn [nodes events links]. split; [| split; [| exact Hname]].
    + intros n Hn. apply Hw. apply in_or_app. auto.
    + intros l Hlk. destruct (Hl l Hlk) as [Hs Ht]. split; [auto |].
      destruct Ht as [Ht | [n [Hn Heq]]]; [left; auto |].
      apply in_app_or in Hn. destruct Hn as [Hn | [<- | []]].
      * right. exists n. auto.
      * left. rewrite Heq. exact Hname.
Qed.

(** C4.  Completeness: when [flatten] returns a graph for a decoded
    document, every link's source and every link's target is in [events]
    (in the sense of Python's [in]; for a string this is membership in the
    list, see [py_in_JStr]). *)
Theorem flatten_links_complete fuel story_data evs lbs lks :
  wf_json story_data = true ->
  flatten fuel story_data = Ret (Some (evs, lbs, lks)) ->
  forall l, In l lks ->
    py_in (JStr (link_event l)) evs = true /\
    py_in (link_children l) evs = true.
Proof.
  intros Hwf H. apply flatten_Some in H.
  destruct H as [items [work [-> [_ [Hwork Hrun]]]]].
  apply top_level_nodes in Hwork.
  apply (while_nodes_inv
           (fun w g => wf_work w /\ linked w (fst (fst g)) (snd g)))
    in Hrun.
  - destruct Hrun as [_ Hl]. cbn [fst snd] in Hl. intros l Hlk.
    destruct (Hl l Hlk) as [Hs [Ht | [n [[] _]]]]. auto.
  - intros node rest g work' g'. apply visit_linked.
  - split; [| intros l []]. subst work. intros n Hn.
    apply in_map_iff in Hn. destruct Hn as [[idx [ev o]] [<- Hn]].
    apply in_enumerate_from in Hn. simpl. eapply wf_json_entry; eauto.
Qed.

Lemma flatten_links_complete_witness :
  wf_json scenario3 = true /\
  flatten 2 scenario3 = Ret (Some scenario3_graph) /\
  forall l, In l (snd scenario3_graph) ->
    py_in (JStr (link_event l)) (fst (fst scenario3_graph)) = true /\
    py_in (link_children l) (fst (fst scenario3_graph)) = true.
Proof.
  split; [vm_compute; reflexivity |]. split; [vm_compute; reflexivity |].
  apply (flatten_links_complete 2 scenario3 _ (snd (fst scenario3_graph)) _).
  - vm_compute. reflexivity.
  - vm_compute. reflexivity.
Defined.

(** ** Path ids *)

Lemma digits_are_digits d : Forall is_digit (digits d).
Proof.
  induction d; simpl; constructor; try assumption; unfold is_digit; lia.
Qed.

Lemma digits_inj d : forall d', digits d = digits d' -> d = d'.
Proof.
  induction d; intros d' H; destruct d'; simpl in H; try discriminate H;
    try reflexivity; injection H as H; f_equal; auto.
Qed.

Lemma digits_nonnil d : d <> Nil -> digits d <> [].
Proof. destruct d; simpl; intros H; [contradiction | discriminate ..]. Qed.

Lemma str_int_nonneg n :
  0 <= n -> exists d, Z.to_int n = Pos d /\ d <> Nil /\ str_int n = digits d.
Proof.
  intros Hn. unfold str_int. destruct n as [| q | q]; [| | lia].
  - exists zero. repeat split. discriminate.
  - exists (Pos.to_uint q). repeat split.
    apply DecimalPos.Unsigned.to_uint_nonnil.
Qed.

Lemma str_int_digits n : 0 <= n -> Forall is_digit (str_int n) /\ str_int n <> [].
Proof.
  intros Hn. destruct (str_int_nonneg n Hn) as [d [_ [Hd ->]]].
  split; [apply digits_are_digits | apply digits_nonnil; exact Hd].
Qed.

Lemma str_int_inj a b : 0 <= a -> 0 <= b -> str_int a = str_int b -> a = b.
Proof.
  intros Ha Hb H.
  destruct (str_int_nonneg a Ha) as [da [Ea [_ Sa]]].
  destruct (str_int_nonneg b Hb) as [db [Eb [_ Sb]]].
  rewrite Sa, Sb in H. apply digits_inj in H. subst db.
  rewrite <- (DecimalZ.of_to a), <- (DecimalZ.of_to b), Ea, Eb. reflexivity.
Qed.

Lemma str_int_no_dash n : 0 <= n -> ~ In 45 (str_int n).
Proof.
  intros Hn Hin. destruct (str_int_digits n Hn) as [Hd _].
  rewrite Forall_forall in Hd. apply Hd in Hin. unfold is_digit in Hin. lia.
Qed.

(** Splitting at the last dash. *)
Lemma split_last_dash (q p r t : pystr) :
  ~ In 45 t ->
  q ++ 45 :: r = p ++ 45 :: t ->
  (q = p /\ r = t) \/ extends q p.
Proof.
  intros Ht. revert p. induction q as [| a q IH]; intros [| b p] H; simpl in H.
  - injection H as ->. left. auto.
  - injection H as <- ->. right. exists p. reflexivity.
  - injection H as -> <-. exfalso. apply Ht. apply in_or_app. right. left.
    reflexivity.
  - injection H as -> H. destruct (IH p H) as [[-> ->] | [m ->]].
    + left. auto.
    + right. exists m. reflexivity.
Qed.

Lemma extends_longer p x : extends p x -> (length p < length x)%nat.
Proof.
  intros [r ->]. rewrite !length_app. unfold lit. simpl. lia.
Qed.

Lemma extends_child p k : extends p (child_id p k).
Proof. exists (str_int k). reflexivity. Qed.

Lemma extends_trans a b c : extends a b -> extends b c -> extends a c.
Proof.
  intros [r ->] [t ->]. exists (r ++ lit "-" ++ t).
  rewrite <- !app_assoc. reflexivity.
Qed.

Lemma child_id_inj p q a b :
  0 <= a -> 0 <= b -> child_id p a = child_id q b -> p = q /\ a = b.
Proof.
  intros Ha Hb H. unfold child_id in H. change (lit "-") with [45] in H.
  simpl in H.
  destruct (split_last_dash p q (str_int a) (str_int b)
              (str_int_no_dash b Hb) H) as [[-> Hs] | Hext].
  - split; [reflexivity | apply str_int_inj; assumption].
  - symmetry in H.
    destruct (split_last_dash q p (str_int b) (str_int a)
                (str_int_no_dash a Ha) H) as [[-> Hs] | Hext'].
    + split; [reflexivity | apply str_int_inj; auto].
    + apply extends_longer in Hext, Hext'. lia.
Qed.

(** What lies above a child: its parent, or what lies above the parent. *)
Lemma extends_child_inv q p k :
  0 <= k -> extends q (child_id p k) -> q = p \/ extends q p.
Proof.
  intros Hk [r H]. unfold child_id in H. change (lit "-") with [45] in H.
  simpl in H. symmetry in H.
  destruct (split_last_dash q p r (str_int k) (str_int_no_dash k Hk) H)
    as [[-> _] | Hext]; auto.
Qed.

Lemma child_not_above p k x :
  0 <= k -> extends (child_id p k) x -> extends p x.
Proof. intros _. apply extends_trans, extends_child. Qed.

Lemma is_end_id_last pid : is_end_id pid = true -> last pid 0 = 100.
Proof.
  unfold is_end_id, endswith. intros H. apply str_eqb_eq in H.
  rewrite <- (firstn_skipn (length pid - length (lit "-end")) pid), H.
  change (lit "-end") with ([45; 101; 110] ++ [100]).
  rewrite app_assoc. apply last_last.
Qed.

Lemma is_end_id_end_id p : is_end_id (end_id p) = true.
Proof.
  unfold is_end_id, endswith, end_id. rewrite length_app.
  replace (length p + length (lit "-end") - length (lit "-end"))%nat
    with (length p + 0)%nat by lia.
  rewrite skipn_app, Nat.add_0_r, skipn_all.
  replace (length p - length p)%nat with 0%nat by lia.
  apply str_eqb_refl.
Qed.

Lemma is_end_id_child p k : 0 <= k -> is_end_id (child_id p k) = false.
Proof.
  intros Hk. destruct (is_end_id (child_id p k)) eqn:E; [| reflexivity].
  apply is_end_id_last in E. unfold child_id in E.
  destruct (str_int_digits k Hk) as [Hd Hne].
  destruct (exists_last Hne) as [t [c Ht]]. rewrite Ht in E, Hd.
  rewrite !app_assoc, last_last in E.
  apply Forall_app in Hd. destruct Hd as [_ Hc]. inversion Hc; subst.
  unfold is_digit in *. lia.
Qed.

Lemma is_end_id_chr c : is_end_id [c] = false.
Proof. unfold is_end_id, endswith. simpl. apply andb_false_r. Qed.

(** ** Recorded path ids *)

Lemma filter_Permutation {A : Type} (f : A -> bool) (l l' : list A) :
  Permutation l l' -> Permutation (filter f l) (filter f l').
Proof.
  induction 1 as [| x l l' _ IH | x y l | l l' l'' _ IH1 _ IH2]; simpl.
  - constructor.
  - destruct (f x); [constructor |]; exact IH.
  - destruct (f x), (f y); try apply Permutation_refl. constructor.
  - eapply Permutation_trans; eauto.
Qed.

(** [record] adds [pid] to the recorded path ids, whichever entry of
    [labels] it goes to. *)
Lemma record_concat nm pid evs lbs evs' lbs' :
  record nm pid evs lbs = Ret (evs', lbs') ->
  Permutation (concat lbs') (pid :: concat lbs).
Proof.
  intros H. apply record_Ret in H.
  destruct H as [[_ [_ ->]] | [_ [_ [pre [l [post [-> ->]]]]]]].
  - rewrite concat_app. simpl. symmetry. apply Permutation_cons_append.
  - rewrite !concat_app. simpl.
    replace (concat pre ++ (l ++ [pid]) ++ concat post)
      with ((concat pre ++ l) ++ pid :: concat post)
      by (rewrite <- !app_assoc; reflexivity).
    replace (pid :: concat pre ++ l ++ concat post)
      with (pid :: (concat pre ++ l) ++ concat post)
      by (rewrite <- !app_assoc; reflexivity).
    symmetry. apply Permutation_middle.
Qed.

Lemma record_node_ids nm pid evs lbs evs' lbs' :
  record nm pid evs lbs = Ret (evs', lbs') ->
  Permutation (node_ids lbs')
    (if is_end_id pid then node_ids lbs else pid :: node_ids lbs).
Proof.
  intros H. apply record_concat in H.
  apply (filter_Permutation (fun x => negb (is_end_id x))) in H.
  unfold node_ids. simpl in H. destruct (is_end_id pid); exact H.
Qed.

Lemma NoDup_app_disjoint {A : Type} (l1 l2 : list A) (a : A) :
  NoDup (l1 ++ l2) -> In a l1 -> In a l2 -> False.
Proof.
  induction l1 as [| x l1 IH]; simpl; intros Hnd H1 H2; [contradiction |].
  inversion Hnd as [| y l Hx Hnd']; subst. destruct H1 as [-> | H1].
  - apply Hx. apply in_or_app. auto.
  - apply IH; assumption.
Qed.

Lemma fresh_ids_Permutation rec rec' pend pend' :
  Permutation (rec ++ pend) (rec' ++ pend') ->
  (forall p, In p pend' -> In p pend) ->
  fresh_ids rec pend -> fresh_ids rec' pend'.
Proof.
  intros Hperm Hsub [Hnd [Hext Hend]]. split; [| split].
  - eapply Permutation_NoDup; eauto.
  - intros p x Hp Hx. apply Hext; [auto |].
    eapply Permutation_in; [symmetry; exact Hperm | exact Hx].
  - auto.
Qed.

Lemma visiting_Permutation p rec rec' pend b :
  Permutation rec rec' -> visiting p rec pend b -> visiting p rec' pend b.
Proof.
  intros Hperm [Hfresh [Hp [Hb Hbelow]]]. split; [| split; [| split]].
  - apply (fresh_ids_Permutation rec rec' pend pend); auto.
    apply Permutation_app_tail. exact Hperm.
  - eapply Permutation_in; eauto.
  - exact Hb.
  - intros x Hx. apply Hbelow.
    eapply Permutation_in; [| exact Hx].
    apply Permutation_app_tail. symmetry. exact Hperm.
Qed.

(** Popping the node with id [p] and recording [p]. *)
Lemma visiting_start p rec rec' rest :
  fresh_ids rec (rest ++ [p]) -> Permutation rec' (p :: rec) ->
  visiting p rec' rest 0.
Proof.
  intros Hfresh Hperm.
  assert (Hall : Permutation (rec ++ rest ++ [p]) (rec' ++ rest)).
  { rewrite Hperm. simpl. rewrite app_assoc. symmetry.
    apply Permutation_cons_append. }
  split; [| split; [| split]].
  - apply (fresh_ids_Permutation rec rec' (rest ++ [p]) rest); auto.
    intros q Hq. apply in_or_app. auto.
  - eapply Permutation_in; [symmetry; exact Hperm | left; reflexivity].
  - lia.
  - intros x Hx Hext. exfalso. destruct Hfresh as [_ [Hno _]].
    apply (Hno p x); [apply in_or_app; right; left; reflexivity | | exact Hext].
    eapply Permutation_in; [symmetry; exact Hall | exact Hx].
Qed.

(** Pushing the next child of the node with id [p]. *)
Lemma visiting_push p rec pend b :
  visiting p rec pend b ->
  visiting p rec (pend ++ [child_id p b]) (b + 1).
Proof.
  intros [[Hnd [Hext Hend]] [Hp [Hb Hbelow]]].
  assert (Hnew : ~ In (child_id p b) (rec ++ pend)).
  { intros Hin. destruct (Hbelow _ Hin (extends_child p b)) as [j [Hj Heq]].
    apply child_id_inj in Heq; [| lia | lia]. lia. }
  assert (Hall : forall x, In x (rec ++ pend ++ [child_id p b]) ->
                           In x (rec ++ pend) \/ x = child_id p b).
  { intros x Hx. rewrite app_assoc in Hx. apply in_app_or in Hx.
    destruct Hx as [Hx | [<- | []]]; auto. }
  split; [split; [| split] | split; [| split]].
  - rewrite app_assoc. apply (Permutation_NoDup (l := child_id p b :: rec ++ pend)).
    + apply Permutation_cons_append.
    + constructor; assumption.
  - intros q x Hq Hx Hqx. apply in_app_or in Hq. apply Hall in Hx.
    destruct Hq as [Hq | [<- | []]]; destruct Hx as [Hx | ->].
    + apply (Hext q x); assumption.
    + apply extends_child_inv in Hqx; [| exact Hb].
      destruct Hqx as [-> | Hqp].
      * apply (NoDup_app_disjoint rec pend p); assumption.
      * apply (Hext q p); [exact Hq | apply in_or_app; auto | exact Hqp].
    + pose proof (child_not_above p b x Hb Hqx) as Hpx.
      destruct (Hbelow x Hx Hpx) as [j [Hj ->]].
      apply extends_child_inv in Hqx; [| lia].
      pose proof (extends_longer _ _ (extends_child p b)).
      destruct Hqx as [Heq | Hqp].
      * rewrite Heq in H. lia.
      * apply extends_longer in Hqp. lia.
    + apply extends_longer in Hqx. lia.
  - intros q Hq. apply in_app_or in Hq. destruct Hq as [Hq | [<- | []]];
      [auto | apply is_end_id_child; exact Hb].
  - exact Hp.
  - lia.
  - intros x Hx Hpx. apply Hall in Hx. destruct Hx as [Hx | ->].
    + destruct (Hbelow x Hx Hpx) as [j [Hj ->]]. exists j. split; [lia | auto].
    + exists b. split; [lia | reflexivity].
Qed.

Lemma visiting_push_all node rec d :
  forall pend b,
    visiting (id node) rec pend b ->
    visiting (id node) rec
      (pend ++ map id (map (child node) (enumerate_from b d))) (b + len d).
Proof.
  induction d as [| [k v] d IH]; intros pend b H; simpl.
  - rewrite app_nil_r. unfold len. simpl. rewrite Z.add_0_r. exact H.
  - apply visiting_push in H. apply (IH _ (b + 1)) in H.
    rewrite <- app_assoc in H. simpl in H.
    replace (b + len ((k, v) :: d)) with (b + 1 + len d)
      by (unfold len; simpl length; lia).
    exact H.
Qed.

Lemma visit_option_ids node s item s' :
  visiting (id node) (node_ids (labels s)) (map id (nodes s)) (branch_idx s) ->
  visit_option node s item = Ret s' ->
  visiting (id node) (node_ids (labels s')) (map id (nodes s'))
    (branch_idx s').
Proof.
  destruct item as [opt outcome]. intros Hv H.
  destruct (isinstance_dict outcome) eqn:Ed.
  - destruct outcome as [| | | | | d]; try discriminate Ed.
    injection H as <-. cbn [nodes labels branch_idx]. unfold enumerate.
    rewrite pushed_shift, Z.add_0_l, map_app.
    apply visiting_push_all. exact Hv.
  - apply visit_option_terminal in H; [| exact Ed].
    destruct H as [evs' [lbs' [Hrec ->]]]. cbn [nodes labels branch_idx].
    apply record_node_ids in Hrec. rewrite is_end_id_end_id in Hrec.
    apply (visiting_Permutation _ (node_ids (labels s))); [| exact Hv].
    symmetry. exact Hrec.
Qed.

Lemma visit_ids node rest g work' g' :
  fresh_ids (node_ids (snd (fst g))) (map id (rest ++ [node])) ->
  visit node rest g = Ret (work', g') ->
  fresh_ids (node_ids (snd (fst g'))) (map id work').
Proof.
  destruct g as [[evs lbs] lks]. cbn [fst snd]. intros Hfresh H.
  unfold visit in H. inv_bind H. destruct a as [evs1 lbs1].
  inv_bind H. inv_bind H. injection H as <- <-. cbn [fst snd].
  rewrite map_app in Hfresh. simpl in Hfresh.
  apply record_node_ids in Hm.
  assert (Hnode : is_end_id (id node) = false).
  { destruct Hfresh as [_ [_ Hend]]. apply Hend. apply in_or_app.
    right. left. reflexivity. }
  rewrite Hnode in Hm.
  pose proof (visiting_start (id node) (node_ids lbs) (node_ids lbs1)
                (map id rest) Hfresh Hm) as Hstart.
  enough (Hfin : visiting (id node) (node_ids (labels a0)) (map id (nodes a0))
                   (branch_idx a0)).
  { destruct Hfin as [Hfin _]. exact Hfin. }
  eapply (for_each_inv
            (fun s => visiting (id node) (node_ids (labels s))
                        (map id (nodes s)) (branch_idx s)));
    [| | exact Hm1].
  - intros s x s' _. apply visit_option_ids.
  - exact Hstart.
Qed.

Lemma top_level_ids_shape (items : dict) i x :
  In x (map id (map (fun '(idx, (ev, outcomes)) =>
                       mkNode ev outcomes [ord_A + idx])
                  (enumerate_from i items))) ->
  exists j, i <= j /\ x = [ord_A + j].
Proof.
  revert i. induction items as [| [k v] items IH]; simpl; intros i H;
    [contradiction |].
  destruct H as [<- | H].
  - exists i. split; [lia | reflexivity].
  - destruct (IH (i + 1) H) as [j [Hj ->]]. exists j. split; [lia | reflexivity].
Qed.

Lemma top_level_fresh (items : dict) i :
  fresh_ids []
    (map id (map (fun '(idx, (ev, outcomes)) =>
                    mkNode ev outcomes [ord_A + idx])
               (enumerate_from i items))).
Proof.
  split; [| split]; simpl.
  - revert i. induction items as [| [k v] items IH]; intros i; simpl;
      constructor; [| apply IH].
    intros Hin. apply top_level_ids_shape in Hin.
    destruct Hin as [j [Hj Heq]]. injection Heq as Heq. lia.
  - intros p x Hp Hx Hext. apply top_level_ids_shape in Hp, Hx.
    destruct Hp as [j [_ ->]]. destruct Hx as [j' [_ ->]].
    apply extends_longer in Hext. simpl in Hext. lia.
  - intros p Hp. apply top_level_ids_shape in Hp. destruct Hp as [j [_ ->]].
    apply is_end_id_chr.
Qed.

(** Counterexample to C3 as stated: for [{"S": {"A": "E1", "B": "E2"}}] the
    path id [A-end] is recorded twice, once for [E1] and once for [E2]. *)
Lemma flatten_end_ids_repeat :
  exists evs lbs lks,
    flatten 1 scenario1 = Ret (Some (evs, lbs, lks)) /\
    concat lbs = scenario1_ids /\
    ~ NoDup (concat lbs).
Proof.
  exists (fst (fst scenario1_graph)), (snd (fst scenario1_graph)),
         (snd scenario1_graph).
  split; [vm_compute; reflexivity |]. split; [reflexivity |].
  simpl. intros Hnd. inversion Hnd as [| x l _ Hnd']; subst.
  inversion Hnd' as [| x l Hin _]; subst. apply Hin. left. reflexivity.
Qed.

(** ** Which exceptions the flattener raises *)

Lemma py_index_found x l :
  py_in x l = true ->
  exists i e, py_index x l = Ret i /\ nth_error l i = Some e /\
              py_eq x e = true.
Proof.
  induction l as [| y l IH]; simpl; intros H; [discriminate |].
  destruct (py_eq x y) eqn:E.
  - exists 0%nat, y. auto.
  - simpl in H. destruct (IH H) as [i [e [Hi [Hn He]]]].
    exists (S i), e. rewrite Hi. auto.
Qed.

(** With events and labels parallel, registering never fails. *)
Lemma record_returns nm pid evs lbs :
  labelled evs lbs -> exists evs' lbs', record nm pid evs lbs = Ret (evs', lbs').
Proof.
  intros [Hlen _]. unfold record. destruct (py_in nm evs) eqn:Ein; simpl.
  - destruct (py_index_found nm evs Ein) as [i [e [Hi [Hn _]]]]. rewrite Hi.
    simpl. unfold append_at.
    destruct (nth_error lbs i) as [l |] eqn:El; simpl; [eauto |].
    apply nth_error_None in El.
    assert (i < length evs)%nat by (apply nth_error_Some; congruence). lia.
  - eauto.
Qed.

Lemma visit_option_returns node s item :
  labelled (events s) (labels s) -> exists s', visit_option node s item = Ret s'.
Proof.
  intros Hl. destruct item as [opt outcome]. unfold visit_option.
  destruct outcome; try (eexists; reflexivity);
    match goal with
    | |- context [record ?nm ?pid ?e ?l] =>
        destruct (record_returns nm pid e l Hl) as [evs' [lbs' ->]]
    end; simpl; eauto.
Qed.

Lemma for_each_returns {S A : Type} (P : S -> Prop) (body : S -> A -> res S)
    (l : list A) :
  (forall s x, P s -> exists s', body s x = Ret s') ->
  (forall s x s', P s -> body s x = Ret s' -> P s') ->
  forall s, P s -> exists s', for_each body s l = Ret s'.
Proof.
  intros Hret Hinv. induction l as [| x l IH]; simpl; intros s Hs; [eauto |].
  destruct (Hret s x Hs) as [s1 H1]. rewrite H1. simpl.
  apply IH. eapply Hinv; eauto.
Qed.

(** An iteration fails only at [node.children.items()], when the value of the
    event is not a mapping. *)
Lemma visit_returns node rest evs lbs lks :
  labelled evs lbs ->
  match children node with
  | JDict _ => exists work' g', visit node rest (evs, lbs, lks) = Ret (work', g')
  | _ => visit node rest (evs, lbs, lks) = Raise AttributeError
  end.
Proof.
  intros Hl. unfold visit.
  destruct (record_returns (JStr (name node)) (id node) evs lbs Hl)
    as [evs1 [lbs1 Hrec]].
  rewrite Hrec. cbn [bind].
  destruct (children node) as [| b | n | t | l | d]; try reflexivity.
  cbn [py_items bind].
  destruct (for_each_returns
              (fun s => labelled (events s) (labels s))
              (visit_option node) d
              (fun s x => visit_option_returns node s x)
              (fun s x s' => visit_option_labelled node s x s')
              {| nodes := rest; events := evs1; labels := lbs1;
                 links := lks; branch_idx := 0 |}) as [s' Hs'].
  - simpl. eapply record_labelled; eauto.
  - rewrite Hs'. simpl. eauto.
Qed.

(** The top-level ids exist as long as [chr] can name the last event. *)
Lemma top_level_chr items :
  forall i, 0 <= i <= max_top_level ->
    comprehension
      (fun '(idx, (ev, outcomes)) =>
         c <- chr (ord_A + idx) ;; Ret (mkNode ev outcomes c))
      (enumerate_from i items) =
    if max_top_level <? i + len items
    then Raise ValueError
    else Ret (map (fun '(idx, (ev, outcomes)) =>
                     mkNode ev outcomes [ord_A + idx])
                (enumerate_from i items)).
Proof.
  unfold max_top_level, ord_A, len.
  induction items as [| [k v] items IH]; intros i Hi.
  - simpl. destruct (1114047 <? i + 0) eqn:E; [| reflexivity].
    apply Z.ltb_lt in E. lia.
  - cbn [enumerate_from comprehension map]. unfold chr at 1.
    destruct ((0 <=? 65 + i) && (65 + i <? 1114112)) eqn:Ec.
    + cbn [bind]. apply andb_true_iff in Ec. destruct Ec as [_ Ec].
      apply Z.ltb_lt in Ec. rewrite (IH (i + 1)) by lia.
      replace (i + 1 + Z.of_nat (length items))
        with (i + Z.of_nat (length ((k, v) :: items)))
        by (simpl length; lia).
      destruct (1114047 <? i + Z.of_nat (length ((k, v) :: items)));
        reflexivity.
    + cbn [bind].
      assert (Hgt : (1114047 <? i + Z.of_nat (length ((k, v) :: items))) = true).
      { apply Z.ltb_lt. simpl length.
        apply andb_false_iff in Ec. destruct Ec as [Ec | Ec].
        - apply Z.leb_gt in Ec. lia.
        - apply Z.ltb_ge in Ec. lia. }
      rewrite Hgt. reflexivity.
Qed.

(** The work list after an iteration: the rest and the children, numbered. *)
Lemma visit_pushed node rest g work' g' :
  visit node rest g = Ret (work', g') ->
  exists items,
    children node = JDict items /\ work' = rest ++ pushed_running node items.
Proof.
  destruct g as [[evs lbs] lks]. unfold visit. intros H.
  inv_bind H. destruct a as [evs1 lbs1]. inv_bind H. inv_bind H.
  injection H as <- _. exists a. split.
  - destruct (children node); try discriminate. injection Hm0 as <-.
    reflexivity.
  - apply for_each_pushed in Hm1. destruct Hm1 as [Hn _]. exact Hn.
Qed.

Lemma pushed_running_children node items n :
  In n (pushed_running node items) ->
  exists ev o, In (ev, o) (nested_entries items) /\ children n = o.
Proof.
  unfold pushed_running, enumerate. intros H. apply in_map_iff in H.
  destruct H as [[j [ev o]] [<- Hin]]. apply in_enumerate_from in Hin.
  exists ev, o. auto.
Qed.

Lemma nested_entries_pushed node items ev o :
  In (ev, o) (nested_entries items) ->
  exists n, In n (pushed_running node items) /\ children n = o.
Proof.
  intros H. destruct (enumerate_from_in _ 0 _ H) as [j Hj].
  exists (child node (j, (ev, o))). split; [| reflexivity].
  unfold pushed_running, enumerate. apply in_map. exact Hj.
Qed.

Lemma node_ok_nested items :
  node_ok (JDict items) = true <->
  forall ev o, In (ev, o) (nested_entries items) -> node_ok o = true.
Proof.
  unfold nested_entries. cbn [node_ok]. rewrite forallb_forall. split.
  - intros H ev o Hin. apply in_flat_map in Hin.
    destruct Hin as [[opt outcome] [Hopt Hin]]. specialize (H _ Hopt).
    cbn [snd] in *. destruct outcome; try contradiction.
    rewrite forallb_forall in H. apply (H (ev, o) Hin).
  - intros H [opt outcome] Hopt. cbn [snd].
    destruct outcome as [| | | | | d]; try reflexivity.
    apply forallb_forall. intros [ev o] Hin. cbn [snd]. apply (H ev o).
    apply in_flat_map. exists (opt, JDict d). auto.
Qed.

Lemma node_ok_dict c : node_ok c = true -> exists items, c = JDict items.
Proof. destruct c; try discriminate. eauto. Qed.

(** A work list of well-shaped sub-trees is worked off. *)
Lemma while_nodes_accepts fuel :
  forall work evs lbs lks,
    labelled evs lbs ->
    (forall n, In n work -> node_ok (children n) = true) ->
    (work_size work <= fuel)%nat ->
    exists g', while_nodes fuel work (evs, lbs, lks) = Ret g'.
Proof.
  induction fuel as [| fuel IH]; intros work evs lbs lks Hl Hok Hle; cbn [while_nodes];
    destruct (pop work) as [[rest node] |] eqn:Epop; eauto;
    apply pop_Some in Epop; subst work.
  - pose proof (work_size_snoc_pos rest node). lia.
  - pose proof (visit_returns node rest evs lbs lks Hl) as Hv.
    assert (Hnode : node_ok (children node) = true).
    { apply Hok. apply in_or_app. right. left. reflexivity. }
    destruct (node_ok_dict _ Hnode) as [items Hitems]. rewrite Hitems in Hv.
    destruct Hv as [work' [[[evs' lbs'] lks'] Hv]]. rewrite Hv. cbn [bind].
    apply IH.
    + eapply visit_labelled; eauto.
    + apply visit_pushed in Hv. destruct Hv as [items' [Hc ->]].
      rewrite Hitems in Hc. injection Hc as <-.
      intros n Hn. apply in_app_or in Hn. destruct Hn as [Hn | Hn].
      * apply Hok. apply in_or_app. auto.
      * apply pushed_running_children in Hn. destruct Hn as [ev [o [Hin <-]]].
        rewrite Hitems in Hnode. eapply node_ok_nested; eauto.
    + apply visit_decreases in Hv. lia.
Qed.

(** A run that returns met well-shaped sub-trees only. *)
Lemma while_nodes_shape fuel :
  forall work g g',
    while_nodes fuel work g = Ret g' ->
    forall n, In n work -> node_ok (children n) = true.
Proof.
  induction fuel as [| fuel IH]; intros work g g' H; cbn [while_nodes] in H;
    destruct (pop work) as [[rest node] |] eqn:Epop; try discriminate;
    try (apply pop_None in Epop; subst work; intros n []).
  apply pop_Some in Epop. subst work. inv_bind H. destruct a as [work' g1].
  pose proof (IH _ _ _ H) as Hok. apply visit_pushed in Hm.
  destruct Hm as [items [Hc ->]].
  intros n Hn. apply in_app_or in Hn. destruct Hn as [Hn | [<- | []]].
  - apply Hok. apply in_or_app. auto.
  - rewrite Hc. apply node_ok_nested. intros ev o Hin.
    destruct (nested_entries_pushed node items ev o Hin) as [m [Hm <-]].
    apply Hok. apply in_or_app. auto.
Qed.

Lemma while_nodes_raises fuel :
  forall work evs lbs lks e,
    labelled evs lbs ->
    while_nodes fuel work (evs, lbs, lks) = Raise e -> e = AttributeError.
Proof.
  induction fuel as [| fuel IH]; intros work evs lbs lks e Hl H; cbn [while_nodes] in H;
    destruct (pop work) as [[rest node] |] eqn:Epop; try discriminate.
  pose proof (visit_returns node rest evs lbs lks Hl) as Hv.
  destruct (visit node rest (evs, lbs, lks)) as [[work' [[evs' lbs'] lks']] | e' |]
    eqn:Ev; cbn [bind] in H.
  - eapply IH; [| exact H]. eapply visit_labelled; eauto.
  - injection H as <-. destruct (children node);
      try (injection Hv as ->; reflexivity).
    destruct Hv as [? [? Hv]]. discriminate.
  - discriminate.
Qed.

Lemma classify_dict d :
  d <> [] ->
  classify (JDict d) =
    if max_top_level <? len d then TooManyEvents
    else if forallb (fun kv => node_ok (snd kv)) d then Story
    else BadShape.
Proof. destruct d; [contradiction | reflexivity]. Qed.

Lemma flatten_dict fuel d :
  d <> [] ->
  flatten fuel (JDict d) =
    (work <- comprehension
               (fun '(idx, (ev, outcomes)) =>
                  c <- chr (ord_A + idx) ;; Ret (mkNode ev outcomes c))
               (enumerate d) ;;
     g <- while_nodes fuel work ([], [], []) ;;
     Ret (Some g)).
Proof. destruct d; [contradiction | reflexivity]. Qed.

Lemma flatten_verdict_dict d k :
  d <> [] ->
  match classify (JDict d) with
  | NoStory => flatten (enough (JDict d) + k) (JDict d) = Ret None
  | TooManyEvents =>
      flatten (enough (JDict d) + k) (JDict d) = Raise ValueError
  | BadShape =>
      flatten (enough (JDict d) + k) (JDict d) = Raise AttributeError
  | Story =>
      exists g, flatten (enough (JDict d) + k) (JDict d) = Ret (Some g)
  end.
Proof.
  intros Hd.
  rewrite (classify_dict d Hd), (flatten_dict _ d Hd).
  unfold enumerate. rewrite top_level_chr by (unfold max_top_level; lia).
  rewrite Z.add_0_l.
  destruct (max_top_level <? len d); [reflexivity |]. cbn [bind].
  set (work := map _ (enumerate_from 0 d)).
  assert (Hsize : (work_size work <= enough (JDict d) + k)%nat).
  { unfold work. rewrite (work_size_pushed (fun idx => [ord_A + idx])).
    unfold enough. cbn [json_size]. fold (dict_size d). lia. }
  assert (Hl0 : labelled [] []) by (split; [reflexivity | constructor]).
  destruct (forallb (fun kv0 => node_ok (snd kv0)) d) eqn:Eok.
  - destruct (while_nodes_accepts (enough (JDict d) + k) work [] [] [] Hl0)
      as [g Hg]; [| exact Hsize | rewrite Hg; simpl; eauto].
    intros n Hn. unfold work in Hn. apply in_map_iff in Hn.
    destruct Hn as [[idx [ev o]] [<- Hn]]. apply in_enumerate_from in Hn.
    rewrite forallb_forall in Eok. apply (Eok (ev, o) Hn).
  - destruct (while_nodes (enough (JDict d) + k) work ([], [], []))
      as [g | e |] eqn:Ew; cbn [bind].
    + exfalso. pose proof (while_nodes_shape _ _ _ _ Ew) as Hok.
      assert (Hall : forallb (fun kv0 => node_ok (snd kv0)) d = true).
      { apply forallb_forall. intros [ev o] Hin. cbn [snd].
        destruct (enumerate_from_in d 0 (ev, o) Hin) as [j Hj].
        apply (Hok (mkNode ev o [ord_A + j])). unfold work.
        apply in_map_iff. exists (j, (ev, o)). auto. }
      congruence.
    + apply while_nodes_raises in Ew; [subst e; reflexivity | exact Hl0].
    + exfalso. apply (while_nodes_enough _ _ _ Hsize Ew).
Qed.

(** X1.  What [flatten] answers is decided by the shape of the document,
    once the loop is allowed enough iterations: the failure triple for a
    root that is not a non-empty mapping; [ValueError] for more than
    1114047 top-level events (the letters [chr] can still name); otherwise
    [AttributeError] when some event the walk reaches has a value that is
    not a mapping, and a graph when every such value is a mapping.  No
    other exception is raised; in particular [labels[events.index(..)]]
    never fails. *)
Theorem flatten_classify story_data k :
  match classify story_data with
  | NoStory => flatten (enough story_data + k) story_data = Ret None
  | TooManyEvents =>
      flatten (enough story_data + k) story_data = Raise ValueError
  | BadShape =>
      flatten (enough story_data + k) story_data = Raise AttributeError
  | Story =>
      exists g, flatten (enough story_data + k) story_data = Ret (Some g)
  end.
Proof.
  destruct story_data as [| b | n | t | l | [| kv items]];
    try (apply flatten_root_check; intros d H; try discriminate H;
         injection H as <-; reflexivity).
  apply flatten_verdict_dict. discriminate.
Qed.

(** ** Counting links and path ids *)

Lemma work_edges_app w1 w2 :
  work_edges (w1 ++ w2) = (work_edges w1 + work_edges w2)%nat.
Proof. unfold work_edges. rewrite map_app, list_sum_app. reflexivity. Qed.

Lemma work_edges_children node (d : dict) i :
  work_edges (map (child node) (enumerate_from i d)) =
  list_sum (map (fun ev => edges (snd ev)) d).
Proof.
  revert i. induction d as [| [k v] d IH]; intros i; [reflexivity |].
  unfold work_edges in *. simpl. rewrite IH. reflexivity.
Qed.

Lemma work_edges_pushed (f : Z -> pystr) (d : dict) i :
  work_edges (map (fun '(idx, (ev, outcomes)) => mkNode ev outcomes (f idx))
                (enumerate_from i d)) =
  list_sum (map (fun ev => edges (snd ev)) d).
Proof.
  revert i. induction d as [| [k v] d IH]; intros i; [reflexivity |].
  unfold work_edges in *. simpl. rewrite IH. reflexivity.
Qed.

Lemma list_sum_S {A : Type} (f : A -> nat) (l : list A) :
  list_sum (map (fun x => S (f x)) l) = (length l + list_sum (map f l))%nat.
Proof. induction l as [| x l IH]; simpl; [reflexivity | rewrite IH; lia]. Qed.

Lemma visit_option_edges node s item s' :
  visit_option node s item = Ret s' ->
  (length (links s') + work_edges (nodes s') =
   length (links s) + work_edges (nodes s) + edges (JDict [item]))%nat.
Proof.
  destruct item as [opt outcome]. intros H.
  destruct (isinstance_dict outcome) eqn:Ed.
  - destruct outcome as [| | | | | d]; try discriminate Ed.
    injection H as <-. cbn [nodes links edges map snd list_sum].
    unfold enumerate. rewrite pushed_shift, Z.add_0_l.
    rewrite length_app, length_map, work_edges_app, work_edges_children.
    rewrite list_sum_S. cbn [list_sum fold_right]. lia.
  - apply visit_option_terminal in H; [| exact Ed].
    destruct H as [evs' [lbs' [_ ->]]]. cbn [nodes links].
    rewrite length_app. destruct outcome; try discriminate Ed; simpl; lia.
Qed.

Lemma edges_cons item items :
  edges (JDict (item :: items)) =
  (edges (JDict [item]) + edges (JDict items))%nat.
Proof. cbn [edges map]. unfold list_sum. simpl. lia. Qed.

Lemma for_each_edges node items :
  forall s s',
    for_each (visit_option node) s items = Ret s' ->
    (length (links s') + work_edges (nodes s') =
     length (links s) + work_edges (nodes s) + edges (JDict items))%nat.
Proof.
  induction items as [| item items IH]; cbn [for_each]; intros s s' H.
  - injection H as <-. simpl. lia.
  - inv_bind H. apply visit_option_edges in Hm. apply IH in H.
    rewrite edges_cons. lia.
Qed.

Lemma visit_edges node rest evs lbs lks work' evs' lbs' lks' :
  visit node rest (evs, lbs, lks) = Ret (work', (evs', lbs', lks')) ->
  (length lks' + work_edges work' =
   length lks + work_edges (rest ++ [node]))%nat.
Proof.
  unfold visit. intros H. inv_bind H. destruct a as [evs1 lbs1].
  inv_bind H. inv_bind H. injection H as <- _ _ <-.
  apply for_each_edges in Hm1. cbn [nodes links] in Hm1.
  rewrite work_edges_app. unfold work_edges at 3. cbn [map list_sum fold_right].
  destruct (children node); try discriminate. injection Hm0 as <-. lia.
Qed.

Lemma flatten_edges fuel story_data evs lbs lks :
  flatten fuel story_data = Ret (Some (evs, lbs, lks)) ->
  length lks = edge_count story_data.
Proof.
  intros H. apply flatten_Some in H.
  destruct H as [items [work [-> [_ [Hwork Hrun]]]]].
  apply top_level_nodes in Hwork.
  apply (while_nodes_inv
           (fun w g => (length (snd g) + work_edges w =
                        edge_count (JDict items))%nat)) in Hrun.
  - cbn [snd] in Hrun. change (work_edges []) with 0%nat in Hrun. lia.
  - intros node rest [[e l] k] work' [[e' l'] k'] Hinv Hv. cbn [snd] in *.
    apply visit_edges in Hv. lia.
  - subst work. cbn [snd length edge_count].
    rewrite (work_edges_pushed (fun idx => [ord_A + idx])). reflexivity.
Qed.

(** X2.  When [flatten] returns a graph, [links] holds exactly one link per
    option edge of the document: one for every terminal outcome and one for
    every event of a nested outcome, at every depth. *)
Theorem flatten_links_count fuel story_data evs lbs lks :
  flatten fuel story_data = Ret (Some (evs, lbs, lks)) ->
  length lks = edge_count story_data.
Proof.
  intros H. apply flatten_Some in H.
  destruct H as [items [work [-> [_ [Hwork Hrun]]]]].
  apply top_level_nodes in Hwork.
  apply (while_nodes_inv
           (fun w g => (length (snd g) + work_edges w =
                        edge_count (JDict items))%nat)) in Hrun.
  - cbn [snd] in Hrun. change (work_edges []) with 0%nat in Hrun. lia.
  - intros node rest [[e l] k] work' [[e' l'] k'] Hinv Hv. cbn [snd] in *.
    apply visit_edges in Hv. lia.
  - subst work. cbn [snd length edge_count].
    rewrite (work_edges_pushed (fun idx => [ord_A + idx])). reflexivity.
Qed.

Lemma flatten_links_count_witness :
  flatten 3 two_branches = Ret (Some two_branches_graph) /\
  length (snd two_branches_graph) = edge_count two_branches.
Proof.
  split; [vm_compute; reflexivity |].
  apply (flatten_links_count 3 two_branches (fst (fst two_branches_graph))
           (snd (fst two_branches_graph)) (snd two_branches_graph)).
  vm_compute. reflexivity.
Defined.

Lemma record_count nm pid evs lbs evs' lbs' :
  record nm pid evs lbs = Ret (evs', lbs') ->
  length (concat lbs') = S (length (concat lbs)).
Proof.
  intros H. apply record_concat in H. apply Permutation_length in H.
  exact H.
Qed.

Lemma visit_option_count node s item s' :
  visit_option node s item = Ret s' ->
  (length (concat (labels s')) + length (nodes s') + length (links s) =
   length (concat (labels s)) + length (nodes s) + length (links s'))%nat.
Proof.
  destruct item as [opt outcome]. intros H.
  destruct (isinstance_dict outcome) eqn:Ed.
  - destruct outcome as [| | | | | d]; try discriminate Ed.
    injection H as <-. cbn [nodes links labels].
    rewrite !length_app, !length_map. unfold enumerate.
    assert (Hlen : forall i, length (enumerate_from i d) = length d).
    { induction d as [| x d IH]; intros i; simpl; [| rewrite IH]; reflexivity. }
    rewrite Hlen. lia.
  - apply visit_option_terminal in H; [| exact Ed].
    destruct H as [evs' [lbs' [Hrec ->]]]. cbn [nodes links labels].
    apply record_count in Hrec. rewrite length_app. simpl. lia.
Qed.

Lemma for_each_count node items :
  forall s s',
    for_each (visit_option node) s items = Ret s' ->
    (length (concat (labels s')) + length (nodes s') + length (links s) =
     length (concat (labels s)) + length (nodes s) + length (links s'))%nat.
Proof.
  induction items as [| item items IH]; cbn [for_each]; intros s s' H.
  - injection H as <-. lia.
  - inv_bind H. apply visit_option_count in Hm. apply IH in H. lia.
Qed.

Lemma visit_count node rest evs lbs lks work' evs' lbs' lks' :
  visit node rest (evs, lbs, lks) = Ret (work', (evs', lbs', lks')) ->
  (length (concat lbs') + length work' + length lks =
   length (concat lbs) + length (rest ++ [node]) + length lks')%nat.
Proof.
  unfold visit. intros H. inv_bind H. destruct a as [evs1 lbs1].
  inv_bind H. inv_bind H. injection H as <- _ <- <-.
  apply for_each_count in Hm1. cbn [nodes links labels] in Hm1.
  apply record_count in Hm. rewrite length_app. simpl. lia.
Qed.

(** X3.  When [flatten] returns a graph for a document with top-level
    mapping [items], the path ids in [labels] are as many as the top-level
    events and the links together: every top-level event and every link
    target is recorded once. *)
Theorem flatten_ids_count fuel items evs lbs lks :
  flatten fuel (JDict items) = Ret (Some (evs, lbs, lks)) ->
  length (concat lbs) = (length items + length lks)%nat.
Proof.
  intros H. apply flatten_Some in H.
  destruct H as [items' [work [Heq [_ [Hwork Hrun]]]]].
  injection Heq as <-. apply top_level_nodes in Hwork.
  apply (while_nodes_inv
           (fun w g => (length (concat (snd (fst g))) + length w =
                        length items + length (snd g))%nat)) in Hrun.
  - cbn [fst snd length] in Hrun. lia.
  - intros node rest [[e l] k] work' [[e' l'] k'] Hinv Hv. cbn [fst snd] in *.
    apply visit_count in Hv. lia.
  - subst work. cbn [fst snd concat length]. rewrite length_map. clear.
    generalize 0. induction items as [| x items IH]; intros i; simpl;
      [reflexivity |].
    specialize (IH (i + 1)). lia.
Qed.

Lemma flatten_ids_count_witness :
  flatten 3 two_branches = Ret (Some two_branches_graph) /\
  length (concat (snd (fst two_branches_graph))) =
    (length [(lit "S", JDict two_branches_items)] +
     length (snd two_branches_graph))%nat.
Proof.
  split; [vm_compute; reflexivity |].
  apply (flatten_ids_count 3 [(lit "S", JDict two_branches_items)]
           (fst (fst two_branches_graph))).
  vm_compute. reflexivity.
Defined.

(** ** Events are registered once *)

Lemma py_distinct_snoc evs nm :
  py_distinct evs -> py_in nm evs = false -> py_distinct (evs ++ [nm]).
Proof.
  intros Hd Hnm pre y post Heq.
  destruct post as [| z post] using rev_ind.
  - apply app_inj_tail in Heq. destruct Heq as [<- <-]. exact Hnm.
  - clear IHpost. rewrite app_comm_cons, app_assoc in Heq.
    apply app_inj_tail in Heq. destruct Heq as [Heq _].
    apply (Hd pre y post Heq).
Qed.

Lemma record_distinct nm pid evs lbs evs' lbs' :
  py_distinct evs -> record nm pid evs lbs = Ret (evs', lbs') ->
  py_distinct evs'.
Proof.
  intros Hd H. apply record_Ret in H.
  destruct H as [[Hin [-> _]] | [_ [-> _]]]; [| exact Hd].
  apply py_distinct_snoc; assumption.
Qed.

Lemma visit_option_distinct node s item s' :
  py_distinct (events s) -> visit_option node s item = Ret s' ->
  py_distinct (events s').
Proof.
  destruct item as [opt outcome]. intros Hd H.
  destruct (isinstance_dict outcome) eqn:Ed.
  - destruct outcome as [| | | | | d]; try discriminate Ed.
    injection H as <-. exact Hd.
  - apply visit_option_terminal in H; [| exact Ed].
    destruct H as [evs' [lbs' [Hrec ->]]]. cbn [events].
    eapply record_distinct; eauto.
Qed.

Lemma visit_distinct node rest evs lbs lks work' evs' lbs' lks' :
  py_distinct evs ->
  visit node rest (evs, lbs, lks) = Ret (work', (evs', lbs', lks')) ->
  py_distinct evs'.
Proof.
  intros Hd H. unfold visit in H. inv_bind H. destruct a as [evs1 lbs1].
  inv_bind H. inv_bind H. injection H as _ <- _ _.
  eapply (for_each_inv (fun s => py_distinct (events s))); [| | exact Hm1].
  - intros s x s' _. apply visit_option_distinct.
  - cbn [events]. eapply record_distinct; eauto.
Qed.

(** X4.  When [flatten] returns a graph, no entry of [events] is equal
    (Python's [==]) to an earlier entry: every event and outcome name is one
    node of the chart, however often it occurs in the document. *)
Theorem flatten_events_distinct fuel story_data evs lbs lks :
  flatten fuel story_data = Ret (Some (evs, lbs, lks)) ->
  forall pre y post, evs = pre ++ y :: post -> py_in y pre = false.
Proof.
  intros H. apply flatten_Some in H.
  destruct H as [items [work [_ [_ [_ Hrun]]]]].
  apply (while_nodes_inv (fun _ g => py_distinct (fst (fst g)))) in Hrun.
  - exact Hrun.
  - intros node rest [[e l] k] work' [[e' l'] k'] Hinv Hv. cbn [fst] in *.
    eapply visit_distinct; eauto.
  - intros pre y post Heq. destruct pre; discriminate.
Qed.

Lemma flatten_events_distinct_witness :
  flatten 2 scenario3 = Ret (Some scenario3_graph) /\
  forall pre y post,
    fst (fst scenario3_graph) = pre ++ y :: post -> py_in y pre = false.
Proof.
  split; [vm_compute; reflexivity |].
  apply (flatten_events_distinct 2 scenario3 _ (snd (fst scenario3_graph))
           (snd scenario3_graph)).
  vm_compute. reflexivity.
Defined.

(** ** Where the path ids come from *)

Lemma record_in nm pid evs lbs evs' lbs' :
  record nm pid evs lbs = Ret (evs', lbs') ->
  forall x, In x (concat lbs') <-> x = pid \/ In x (concat lbs).
Proof.
  intros H x. apply record_concat in H. split; intros Hx.
  - apply (Permutation_in x H) in Hx. destruct Hx as [<- | Hx]; auto.
  - apply (Permutation_in x (Permutation_sym H)).
    destruct Hx as [-> | Hx]; [left | right]; auto.
Qed.

Lemma node_ids_in lbs p :
  In p (node_ids lbs) <-> In p (concat lbs) /\ is_end_id p = false.
Proof.
  unfold node_ids. rewrite filter_In. rewrite negb_true_iff. reflexivity.
Qed.

Lemma record_traced nm pid evs lbs evs' lbs' :
  ends_traced lbs ->
  (is_end_id pid = false \/ exists p, In p (node_ids lbs) /\ pid = end_id p) ->
  record nm pid evs lbs = Ret (evs', lbs') ->
  ends_traced lbs'.
Proof.
  intros Ht Hpid H x Hx Hend.
  pose proof (record_in _ _ _ _ _ _ H) as Hin.
  assert (Hgrow : forall p, In p (node_ids lbs) -> In p (node_ids lbs')).
  { intros p Hp. apply node_ids_in in Hp. apply node_ids_in.
    destruct Hp as [Hp Hne]. split; [apply Hin; auto | exact Hne]. }
  apply Hin in Hx. destruct Hx as [-> | Hx].
  - destruct Hpid as [Hne | [p [Hp ->]]]; [congruence |]. exists p. auto.
  - destruct (Ht x Hx Hend) as [p [Hp ->]]. exists p. auto.
Qed.

Lemma visit_option_traced node s item s' :
  ends_traced (labels s) /\ In (id node) (node_ids (labels s)) ->
  visit_option node s item = Ret s' ->
  ends_traced (labels s') /\ In (id node) (node_ids (labels s')).
Proof.
  destruct item as [opt outcome]. intros [Ht Hn] H.
  destruct (isinstance_dict outcome) eqn:Ed.
  - destruct outcome as [| | | | | d]; try discriminate Ed.
    injection H as <-. auto.
  - apply visit_option_terminal in H; [| exact Ed].
    destruct H as [evs' [lbs' [Hrec ->]]]. cbn [labels]. split.
    + eapply record_traced; [exact Ht | | exact Hrec]. right. eauto.
    + apply node_ids_in in Hn. apply node_ids_in. destruct Hn as [Hn Hne].
      split; [| exact Hne]. apply (record_in _ _ _ _ _ _ Hrec). auto.
Qed.

Lemma visit_traced node rest evs lbs lks work' evs' lbs' lks' :
  ends_traced lbs -> is_end_id (id node) = false ->
  visit node rest (evs, lbs, lks) = Ret (work', (evs', lbs', lks')) ->
  ends_traced lbs'.
Proof.
  intros Ht Hne H. unfold visit in H. inv_bind H. destruct a as [evs1 lbs1].
  inv_bind H. inv_bind H. injection H as _ _ <- _.
  enough (Hfin : ends_traced (labels a0) /\
                 In (id node) (node_ids (labels a0))) by apply Hfin.
  eapply (for_each_inv
            (fun s => ends_traced (labels s) /\
                      In (id node) (node_ids (labels s))));
    [| | exact Hm1].
  - intros s x s' _. apply visit_option_traced.
  - cbn [labels]. split.
    + eapply record_traced; [exact Ht | left; exact Hne | exact Hm].
    + apply node_ids_in. split; [| exact Hne].
      apply (record_in _ _ _ _ _ _ Hm). auto.
Qed.

(** X5.  When [flatten] returns a graph, every path id in [labels] that ends
    in ["-end"] is the path id of a node recorded in [labels], followed by
    ["-end"]: the label of a terminal outcome names the node it ends. *)
Theorem flatten_end_ids_traced fuel story_data evs lbs lks :
  flatten fuel story_data = Ret (Some (evs, lbs, lks)) ->
  forall x, In x (concat lbs) -> is_end_id x = true ->
    exists p, In p (concat lbs) /\ is_end_id p = false /\ x = end_id p.
Proof.
  intros H. apply flatten_Some in H.
  destruct H as [items [work [_ [_ [Hwork Hrun]]]]].
  apply top_level_nodes in Hwork.
  apply (while_nodes_inv
           (fun w g => fresh_ids (node_ids (snd (fst g))) (map id w) /\
                       ends_traced (snd (fst g)))) in Hrun.
  - destruct Hrun as [_ Ht]. cbn [fst snd] in Ht. intros x Hx Hend.
    destruct (Ht x Hx Hend) as [p [Hp ->]]. apply node_ids_in in Hp.
    exists p. tauto.
  - intros node rest [[e l] k] work' [[e' l'] k'] [Hf Ht] Hv.
    cbn [fst snd] in *. split.
    + apply (visit_ids node rest (e, l, k) work' (e', l', k')); assumption.
    + eapply visit_traced; [exact Ht | | exact Hv].
      destruct Hf as [_ [_ Hend]]. apply Hend. rewrite map_app.
      apply in_or_app. right. left. reflexivity.
  - split; [subst work; apply top_level_fresh |]. intros x [].
Qed.

Lemma flatten_end_ids_traced_witness :
  flatten 2 scenario3 = Ret (Some scenario3_graph) /\
  In (lit "A-0-end") (concat (snd (fst scenario3_graph))) /\
  is_end_id (lit "A-0-end") = true /\
  exists p, In p (concat (snd (fst scenario3_graph))) /\
            is_end_id p = false /\ lit "A-0-end" = end_id p.
Proof.
  split; [vm_compute; reflexivity |].
  split; [simpl; auto |]. split; [vm_compute; reflexivity |].
  apply (flatten_end_ids_traced 2 scenario3 (fst (fst scenario3_graph))
           (snd (fst scenario3_graph)) (snd scenario3_graph)).
  - vm_compute. reflexivity.
  - simpl. auto.
  - vm_compute. reflexivity.
Defined.

(** ** The format of a path id *)

Lemma digits_tail d : Forall tail_char (digits d).
Proof.
  pose proof (digits_are_digits d) as H. rewrite Forall_forall in *.
  intros c Hc. right. left. auto.
Qed.

Lemma str_int_tail n : Forall tail_char (str_int n).
Proof.
  unfold str_int. destruct (Z.to_int n); [apply digits_tail |].
  constructor; [left; reflexivity | apply digits_tail].
Qed.

Lemma child_id_format n p k : path_id_of n p -> path_id_of n (child_id p k).
Proof.
  intros [idx [rest [Hidx [-> Hrest]]]].
  exists idx, (rest ++ lit "-" ++ str_int k). split; [exact Hidx |].
  split; [reflexivity |]. apply Forall_app. split; [exact Hrest |].
  apply Forall_app. split; [| apply str_int_tail].
  change (lit "-") with [45].
  constructor; [left; reflexivity | constructor].
Qed.

Lemma end_id_format n p : path_id_of n p -> path_id_of n (end_id p).
Proof.
  intros [idx [rest [Hidx [-> Hrest]]]].
  exists idx, (rest ++ lit "-end"). split; [exact Hidx |].
  split; [reflexivity |]. apply Forall_app. split; [exact Hrest |].
  change (lit "-end") with [45; 101; 110; 100].
  repeat (constructor; [unfold tail_char, is_digit; lia |]). constructor.
Qed.

Lemma record_format n nm pid evs lbs evs' lbs' :
  Forall (path_id_of n) (concat lbs) -> path_id_of n pid ->
  record nm pid evs lbs = Ret (evs', lbs') ->
  Forall (path_id_of n) (concat lbs').
Proof.
  intros Hall Hpid H. rewrite Forall_forall in *. intros x Hx.
  apply (record_in _ _ _ _ _ _ H) in Hx. destruct Hx as [-> | Hx]; auto.
Qed.

Lemma visit_option_format n node s item s' :
  path_id_of n (id node) ->
  Forall (path_id_of n) (concat (labels s)) /\
    Forall (path_id_of n) (map id (nodes s)) ->
  visit_option node s item = Ret s' ->
  Forall (path_id_of n) (concat (labels s')) /\
    Forall (path_id_of n) (map id (nodes s')).
Proof.
  destruct item as [opt outcome]. intros Hnode [Hl Hw] H.
  destruct (isinstance_dict outcome) eqn:Ed.
  - destruct outcome as [| | | | | d]; try discriminate Ed.
    injection H as <-. cbn [labels nodes]. split; [exact Hl |].
    rewrite map_app. apply Forall_app. split; [exact Hw |].
    apply Forall_forall. intros x Hx. apply in_map_iff in Hx.
    destruct Hx as [m [<- Hm]]. apply in_map_iff in Hm.
    destruct Hm as [[idx [ev o]] [<- _]]. cbn [id].
    apply child_id_format. exact Hnode.
  - apply visit_option_terminal in H; [| exact Ed].
    destruct H as [evs' [lbs' [Hrec ->]]]. cbn [labels nodes].
    split; [| exact Hw].
    eapply record_format; [exact Hl | | exact Hrec].
    apply end_id_format. exact Hnode.
Qed.

Lemma visit_format n node rest evs lbs lks work' evs' lbs' lks' :
  Forall (path_id_of n) (concat lbs) /\
    Forall (path_id_of n) (map id (rest ++ [node])) ->
  visit node rest (evs, lbs, lks) = Ret (work', (evs', lbs', lks')) ->
  Forall (path_id_of n) (concat lbs') /\ Forall (path_id_of n) (map id work').
Proof.
  intros [Hl Hw] H. rewrite map_app in Hw. apply Forall_app in Hw.
  destruct Hw as [Hrest Hnode]. inversion Hnode as [| ? ? Hid _]; subst.
  unfold visit in H. inv_bind H. destruct a as [evs1 lbs1].
  inv_bind H. inv_bind H. injection H as <- _ <- _.
  eapply (for_each_inv
            (fun s => Forall (path_id_of n) (concat (labels s)) /\
                      Forall (path_id_of n) (map id (nodes s))));
    [| | exact Hm1].
  - intros s x s' _. apply visit_option_format. exact Hid.
  - cbn [labels nodes]. split; [| exact Hrest].
    eapply record_format; eauto.
Qed.

Lemma enumerate_from_bounds {A : Type} (l : list A) i j (x : A) :
  In (j, x) (enumerate_from i l) -> i <= j < i + len l.
Proof.
  unfold len. revert i. induction l as [| y l IH]; simpl; intros i H;
    [contradiction |].
  destruct H as [H | H]; [injection H as <- _; lia |].
  apply IH in H. lia.
Qed.

(** X6.  When [flatten] returns a graph for a document with top-level
    mapping [items], every path id in [labels] starts with the letter
    [chr(ord("A") + idx)] of one of the top-level events, [idx] below
    [len(items)], and continues with dashes, digits and the letters of
    ["end"] only; so no path id is empty or holds a comma, the separator of
    the slugs on line 214. *)
Theorem flatten_path_id_format fuel items evs lbs lks :
  flatten fuel (JDict items) = Ret (Some (evs, lbs, lks)) ->
  forall x, In x (concat lbs) ->
    exists idx rest,
      0 <= idx < len items /\ x = (ord_A + idx) :: rest /\
      Forall (fun c => c = 45 \/ 48 <= c <= 57 \/
                       c = 101 \/ c = 110 \/ c = 100) rest.
Proof.
  intros H. apply flatten_Some in H.
  destruct H as [items' [work [Heq [_ [Hwork Hrun]]]]].
  injection Heq as <-. apply top_level_nodes in Hwork.
  apply (while_nodes_inv
           (fun w g => Forall (path_id_of (len items)) (concat (snd (fst g))) /\
                       Forall (path_id_of (len items)) (map id w))) in Hrun.
  - destruct Hrun as [Hl _]. cbn [fst snd] in Hl.
    rewrite Forall_forall in Hl. exact Hl.
  - intros node rest [[e l] k] work' [[e' l'] k'] Hinv Hv. cbn [fst snd] in *.
    eapply visit_format; eauto.
  - split; [constructor |]. subst work. apply Forall_forall. intros x Hx.
    apply in_map_iff in Hx. destruct Hx as [m [<- Hm]].
    apply in_map_iff in Hm. destruct Hm as [[idx [ev o]] [<- Hin]].
    apply enumerate_from_bounds in Hin. cbn [id].
    exists idx, []. split; [lia |]. split; [reflexivity | constructor].
Qed.

Lemma flatten_path_id_format_witness :
  flatten 2 scenario3 = Ret (Some scenario3_graph) /\
  In (lit "A-0-end") (concat (snd (fst scenario3_graph))) /\
  exists idx rest,
    0 <= idx < len [(lit "S", JDict [(lit "A",
               JDict [(lit "S", JDict [(lit "B", JStr (lit "E1"))])])])] /\
    lit "A-0-end" = (ord_A + idx) :: rest /\
    Forall (fun c => c = 45 \/ 48 <= c <= 57 \/
                     c = 101 \/ c = 110 \/ c = 100) rest.
Proof.
  split; [vm_compute; reflexivity |]. split; [simpl; auto |].
  apply (flatten_path_id_format 2 _ (fst (fst scenario3_graph))
           (snd (fst scenario3_graph)) (snd scenario3_graph)).
  - vm_compute. reflexivity.
  - simpl. auto.
Defined.

(** ** The chart *)

Lemma flatten_linked fuel story_data evs lbs lks :
  wf_json story_data = true ->
  flatten fuel story_data = Ret (Some (evs, lbs, lks)) ->
  linked [] evs lks.
Proof.
  intros Hwf H. apply flatten_Some in H.
  destruct H as [items [work [-> [_ [Hwork Hrun]]]]].
  apply top_level_nodes in Hwork.
  apply (while_nodes_inv
           (fun w g => wf_work w /\ linked w (fst (fst g)) (snd g)))
    in Hrun.
  - apply Hrun.
  - intros node rest g work' g'. apply visit_linked.
  - split; [| intros l []]. subst work. intros n Hn.
    apply in_map_iff in Hn. destruct Hn as [[idx [ev o]] [<- Hn]].
    apply in_enumerate_from in Hn. simpl. eapply wf_json_entry; eauto.
Qed.

Lemma flatten_labelled fuel story_data evs lbs lks :
  flatten fuel story_data = Ret (Some (evs, lbs, lks)) -> labelled evs lbs.
Proof.
  intros H. apply flatten_Some in H.
  destruct H as [items [work [_ [_ [_ Hrun]]]]].
  apply (while_nodes_inv (fun _ g => labelled (fst (fst g)) (snd (fst g))))
    in Hrun; [exact Hrun | | split; [reflexivity | constructor]].
  intros node rest [[e l] k] work' [[e' l'] k'] Hl Hv. simpl in *.
  eapply visit_labelled; eauto.
Qed.

Lemma comprehension_Forall2 {A B : Type} (R : A -> B -> Prop)
    (f : A -> res B) (l : list A) :
  (forall x, In x l -> exists y, f x = Ret y /\ R x y) ->
  exists ys, comprehension f l = Ret ys /\ Forall2 R l ys.
Proof.
  induction l as [| x l IH]; simpl; intros H.
  - exists []. split; [reflexivity | constructor].
  - destruct (H x (or_introl eq_refl)) as [y [Hy HR]].
    destruct IH as [ys [Hys HF]]; [intros z Hz; apply H; auto |].
    exists (y :: ys). rewrite Hy, Hys. split; [reflexivity |].
    constructor; assumption.
Qed.

(** The index lists of lines 210 and 211 exist and point at the right
    events. *)
Lemma chart_indices fuel story_data evs lbs lks :
  wf_json story_data = true ->
  flatten fuel story_data = Ret (Some (evs, lbs, lks)) ->
  exists sources targets,
    comprehension (fun l => py_index (JStr (link_event l)) evs) lks =
      Ret sources /\
    comprehension (fun l => py_index (link_children l) evs) lks =
      Ret targets /\
    Forall2 (fun l i => nth_error evs i = Some (JStr (link_event l)))
      lks sources /\
    Forall2 (fun l i => exists e, nth_error evs i = Some e /\
                                  py_eq (link_children l) e = true)
      lks targets.
Proof.
  intros Hwf Hflat.
  pose proof (flatten_linked _ _ _ _ _ Hwf Hflat) as Hlinked.
  assert (Hin : forall l, In l lks ->
            py_in (JStr (link_event l)) evs = true /\
            py_in (link_children l) evs = true).
  { intros l Hl. destruct (Hlinked l Hl) as [Hs [Ht | [n [[] _]]]]. auto. }
  destruct (comprehension_Forall2
              (fun l i => nth_error evs i = Some (JStr (link_event l)))
              (fun l => py_index (JStr (link_event l)) evs) lks)
    as [sources [Hsrc HFs]].
  { intros l Hl. destruct (Hin l Hl) as [Hs _].
    destruct (py_index_found _ _ Hs) as [i [e [Hi [Hn He]]]].
    exists i. split; [exact Hi |].
    destruct e; simpl in He; try discriminate.
    apply str_eqb_eq in He. subst. exact Hn. }
  destruct (comprehension_Forall2
              (fun l i => exists e, nth_error evs i = Some e /\
                                    py_eq (link_children l) e = true)
              (fun l => py_index (link_children l) evs) lks)
    as [targets [Htgt HFt]].
  { intros l Hl. destruct (Hin l Hl) as [_ Ht].
    destruct (py_index_found _ _ Ht) as [i [e [Hi [Hn He]]]].
    exists i. split; [exact Hi |]. exists e. auto. }
  exists sources, targets. auto.
Qed.

(** A graph with a link has an event and a label. *)
Lemma graph_nonempty fuel story_data evs lbs lks :
  wf_json story_data = true ->
  flatten fuel story_data = Ret (Some (evs, lbs, lks)) ->
  lks <> [] -> evs <> [] /\ lbs <> [].
Proof.
  intros Hwf Hflat Hlks.
  pose proof (flatten_linked _ _ _ _ _ Hwf Hflat) as Hlinked.
  pose proof (flatten_labelled _ _ _ _ _ Hflat) as [Hlen _].
  destruct lks as [| l0 lks0]; [contradiction |].
  destruct (Hlinked l0 (or_introl eq_refl)) as [Hs _].
  destruct evs as [| e0 evs0]; [discriminate Hs |].
  destruct lbs as [| b0 lbs0]; [discriminate Hlen |].
  split; discriminate.
Qed.

(** X7.  For a decoded document that [flatten] turns into a graph with at
    least one link, the page draws the chart and never fails on
    [events.index]: there is one source and one target index per link, in
    the order of [links]; the event at the source index is the link's
    event, and the event at the target index equals the link's target. *)
Theorem preview_draws_links json_loads fuel content story_data evs lbs lks :
  json_loads content = Ret story_data ->
  wf_json story_data = true ->
  flatten fuel story_data = Ret (Some (evs, lbs, lks)) ->
  lks <> [] ->
  exists sources targets,
    preview json_loads fuel content =
      Ret (Sankey sources targets (map link_option lks)) /\
    Forall2 (fun l i => nth_error evs i = Some (JStr (link_event l)))
      lks sources /\
    Forall2 (fun l i => exists e, nth_error evs i = Some e /\
                                  py_eq (link_children l) e = true)
      lks targets.
Proof.
  intros Hload Hwf Hflat Hlks.
  destruct (chart_indices _ _ _ _ _ Hwf Hflat)
    as [sources [targets [Hsrc [Htgt [HFs HFt]]]]].
  destruct (graph_nonempty _ _ _ _ _ Hwf Hflat Hlks) as [Hevs Hlbs].
  exists sources, targets. split; [| split; assumption].
  unfold preview, check_json_health, parse_story. rewrite Hload.
  cbn [bind negb]. rewrite Hflat. cbn [bind].
  destruct lks as [| l0 lks0]; [contradiction |].
  destruct evs as [| e0 evs0]; [contradiction |].
  destruct lbs as [| b0 lbs0]; [contradiction |].
  rewrite Hsrc. cbn [bind]. rewrite Htgt. reflexivity.
Qed.

Lemma preview_draws_links_witness :
  loads_scenario3 scenario3_text = Ret scenario3 /\
  wf_json scenario3 = true /\
  flatten 2 scenario3 = Ret (Some scenario3_graph) /\
  snd scenario3_graph <> [] /\
  exists sources targets,
    preview loads_scenario3 2 scenario3_text =
      Ret (Sankey sources targets (map link_option (snd scenario3_graph))) /\
    Forall2 (fun l i => nth_error (fst (fst scenario3_graph)) i =
                        Some (JStr (link_event l)))
      (snd scenario3_graph) sources /\
    Forall2 (fun l i => exists e,
               nth_error (fst (fst scenario3_graph)) i = Some e /\
               py_eq (link_children l) e = true)
      (snd scenario3_graph) targets.
Proof.
  split; [reflexivity |]. split; [vm_compute; reflexivity |].
  split; [vm_compute; reflexivity |]. split; [discriminate |].
  apply (preview_draws_links loads_scenario3 2 scenario3_text scenario3
           (fst (fst scenario3_graph)) (snd (fst scenario3_graph))
           (snd scenario3_graph)).
  - reflexivity.
  - vm_compute. reflexivity.
  - vm_compute. reflexivity.
  - discriminate.
Defined.

(** X8.  What the page shows for a decoded document, once the loop is
    allowed enough iterations: the format error when the root is not a
    non-empty mapping; an uncaught [ValueError] for more than 1114047
    top-level events; an uncaught [AttributeError] when some event the walk
    reaches has a value that is not a mapping; for a well-shaped story the
    format error when no event offers an option, and otherwise the chart,
    with one source, target and option text per option edge. *)
Theorem preview_classify json_loads content story_data k :
  json_loads content = Ret story_data ->
  wf_json story_data = true ->
  match classify story_data with
  | NoStory =>
      preview json_loads (enough story_data + k) content = Ret FormatError
  | TooManyEvents =>
      preview json_loads (enough story_data + k) content = Raise ValueError
  | BadShape =>
      preview json_loads (enough story_data + k) content =
        Raise AttributeError
  | Story =>
      if (edge_count story_data =? 0)%nat
      then preview json_loads (enough story_data + k) content =
             Ret FormatError
      else exists sources targets options,
             preview json_loads (enough story_data + k) content =
               Ret (Sankey sources targets options) /\
             length sources = edge_count story_data /\
             length targets = edge_count story_data /\
             length options = edge_count story_data
  end.
Proof.
  intros Hload Hwf.
  assert (Hv : match classify story_data with
               | NoStory =>
                   flatten (enough story_data + k) story_data = Ret None
               | TooManyEvents =>
                   flatten (enough story_data + k) story_data =
                     Raise ValueError
               | BadShape =>
                   flatten (enough story_data + k) story_data =
                     Raise AttributeError
               | Story =>
                   exists g, flatten (enough story_data + k) story_data =
                               Ret (Some g)
               end).
  { destruct story_data as [| b | n | t | l | [| kv items]];
      try (apply flatten_root_check; intros d H; try discriminate H;
           injection H as <-; reflexivity).
    apply flatten_verdict_dict. discriminate. }
  destruct (classify story_data).
  - unfold preview, check_json_health, parse_story. rewrite Hload.
    cbn [bind negb]. rewrite Hv. reflexivity.
  - unfold preview, check_json_health, parse_story. rewrite Hload.
    cbn [bind negb]. rewrite Hv. reflexivity.
  - unfold preview, check_json_health, parse_story. rewrite Hload.
    cbn [bind negb]. rewrite Hv. reflexivity.
  - destruct Hv as [[[evs lbs] lks] Hflat].
    pose proof (flatten_edges _ _ _ _ _ Hflat) as Hcount.
    destruct (edge_count story_data =? 0)%nat eqn:E0.
    + apply Nat.eqb_eq in E0. rewrite E0 in Hcount.
      destruct lks; [| discriminate Hcount].
      unfold preview, check_json_health, parse_story. rewrite Hload.
      cbn [bind negb]. rewrite Hflat. cbn [bind].
      destruct evs; [reflexivity |]. destruct lbs; reflexivity.
    + apply Nat.eqb_neq in E0.
      assert (Hlks : lks <> []) by (intros ->; simpl in Hcount; lia).
      destruct (chart_indices _ _ _ _ _ Hwf Hflat)
        as [sources [targets [Hsrc [Htgt [Hs Ht]]]]].
      destruct (graph_nonempty _ _ _ _ _ Hwf Hflat Hlks) as [Hevs Hlbs].
      exists sources, targets, (map link_option lks). split.
      * unfold preview, check_json_health, parse_story. rewrite Hload.
        cbn [bind negb]. rewrite Hflat. cbn [bind].
        destruct lks as [| l0 lks0]; [contradiction |].
        destruct evs as [| e0 evs0]; [contradiction |].
        destruct lbs as [| b0 lbs0]; [contradiction |].
        rewrite Hsrc. cbn [bind]. rewrite Htgt. reflexivity.
      * apply Forall2_length in Hs, Ht. rewrite length_map. lia.
Qed.

Lemma preview_classify_witness :
  loads_scenario3 scenario3_text = Ret scenario3 /\
  wf_json scenario3 = true /\
  classify scenario3 = Story /\
  (edge_count scenario3 =? 0)%nat = false /\
  exists sources targets options,
    preview loads_scenario3 (enough scenario3 + 0) scenario3_text =
      Ret (Sankey sources targets options) /\
    length sources = edge_count scenario3 /\
    length targets = edge_count scenario3 /\
    length options = edge_count scenario3.
Proof.
  split; [reflexivity |]. split; [vm_compute; reflexivity |].
  split; [vm_compute; reflexivity |]. split; [vm_compute; reflexivity |].
  exact (preview_classify loads_scenario3 scenario3_text scenario3 0
           eq_refl eq_refl).
Defined.

(** ** The walk starts at the last top-level event *)

Lemma record_starts e0 pid0 nm pid evs lbs evs' lbs' :
  starts_with e0 pid0 evs lbs -> record nm pid evs lbs = Ret (evs', lbs') ->
  starts_with e0 pid0 evs' lbs'.
Proof.
  intros [evs0 [l [lbs0 [-> ->]]]] H. apply record_Ret in H.
  destruct H as [[_ [-> ->]] | [_ [-> [pre [l1 [post [Heq ->]]]]]]].
  - exists (evs0 ++ [nm]), l, (lbs0 ++ [[pid]]). auto.
  - exists evs0. destruct pre as [| l0 pre]; simpl in *.
    + injection Heq as <- <-. exists (l ++ [pid]), lbs0. auto.
    + injection Heq as <- ->. exists l, (pre ++ (l1 ++ [pid]) :: post). auto.
Qed.

Lemma visit_option_starts e0 pid0 node s item s' :
  starts_with e0 pid0 (events s) (labels s) ->
  visit_option node s item = Ret s' ->
  starts_with e0 pid0 (events s') (labels s').
Proof.
  destruct item as [opt outcome]. intros Hs H.
  destruct (isinstance_dict outcome) eqn:Ed.
  - destruct outcome as [| | | | | d]; try discriminate Ed.
    injection H as <-. exact Hs.
  - apply visit_option_terminal in H; [| exact Ed].
    destruct H as [evs' [lbs' [Hrec ->]]]. cbn [events labels].
    eapply record_starts; eauto.
Qed.

Lemma visit_starts e0 pid0 node rest evs lbs lks work' evs' lbs' lks' :
  (starts_with e0 pid0 evs lbs \/
   (evs = [] /\ lbs = [] /\ e0 = JStr (name node) /\ pid0 = id node)) ->
  visit node rest (evs, lbs, lks) = Ret (work', (evs', lbs', lks')) ->
  starts_with e0 pid0 evs' lbs'.
Proof.
  intros Hs H. unfold visit in H. inv_bind H. destruct a as [evs1 lbs1].
  inv_bind H. inv_bind H. injection H as _ <- <- _.
  eapply (for_each_inv (fun s => starts_with e0 pid0 (events s) (labels s)));
    [| | exact Hm1].
  - intros s x s' _. apply visit_option_starts.
  - cbn [events labels]. destruct Hs as [Hs | [-> [-> [-> ->]]]].
    + eapply record_starts; eauto.
    + unfold record in Hm. simpl in Hm. injection Hm as <- <-.
      exists [], [], []. auto.
Qed.

(** X9.  The walk is last-in first-out from the start: when [flatten]
    returns a graph, the first entry of [events] is the last top-level event
    of the document, and the first path id of its label is that event's
    letter. *)
Theorem flatten_first_event fuel items k v evs lbs lks :
  flatten fuel (JDict (items ++ [(k, v)])) = Ret (Some (evs, lbs, lks)) ->
  exists evs' l lbs',
    evs = JStr k :: evs' /\ lbs = ([ord_A + len items] :: l) :: lbs'.
Proof.
  intros H. apply flatten_Some in H.
  destruct H as [items' [work [Heq [_ [Hwork Hrun]]]]].
  injection Heq as <-. apply top_level_nodes in Hwork.
  unfold enumerate in Hwork. rewrite enumerate_from_app, map_app in Hwork.
  cbn [enumerate_from map] in Hwork. rewrite Z.add_0_l in Hwork.
  subst work. destruct fuel as [| fuel]; cbn [while_nodes] in Hrun;
    rewrite pop_snoc in Hrun; [discriminate |].
  inv_bind Hrun. destruct a as [work' [[evs1 lbs1] lks1]].
  apply (visit_starts (JStr k) [ord_A + len items]) in Hm;
    [| right; auto].
  apply (while_nodes_inv
           (fun _ g => starts_with (JStr k) [ord_A + len items]
                         (fst (fst g)) (snd (fst g)))) in Hrun.
  - exact Hrun.
  - intros node rest [[e l] k0] w' [[e' l'] k'] Hinv Hv. cbn [fst snd] in *.
    eapply visit_starts; [left; exact Hinv | exact Hv].
  - exact Hm.
Qed.

Lemma flatten_first_event_witness :
  exists evs lbs lks,
    flatten 2 (JDict ([(lit "P", JDict [(lit "x", JStr (lit "E"))])] ++
                      [(lit "Q", JDict [(lit "y", JStr (lit "F"))])])) =
      Ret (Some (evs, lbs, lks)) /\
    exists evs' l lbs',
      evs = JStr (lit "Q") :: evs' /\
      lbs = ([ord_A + len [(lit "P", JDict [(lit "x", JStr (lit "E"))])]]
               :: l) :: lbs'.
Proof.
  eexists. eexists. eexists. split; [vm_compute; reflexivity |].
  eapply (flatten_first_event 2 [(lit "P", JDict [(lit "x", JStr (lit "E"))])]
            (lit "Q") (JDict [(lit "y", JStr (lit "F"))])).
  vm_compute. reflexivity.
Defined.

(** ** Links and events come from the document *)

Lemma record_events_in nm pid evs lbs evs' lbs' :
  record nm pid evs lbs = Ret (evs', lbs') ->
  forall e, In e evs' -> In e evs \/ e = nm.
Proof.
  intros H e He. apply record_Ret in H.
  destruct H as [[_ [-> _]] | [_ [-> _]]]; [| auto].
  apply in_app_or in He. destruct He as [He | [<- | []]]; auto.
Qed.

Lemma visit_option_sound items node opts s item s' :
  event_of items (name node) (JDict opts) -> In item opts ->
  (forall n, In n (nodes s) -> event_of items (name n) (children n)) /\
    (forall l, In l (links s) -> edge_of items l) ->
  visit_option node s item = Ret s' ->
  (forall n, In n (nodes s') -> event_of items (name n) (children n)) /\
    (forall l, In l (links s') -> edge_of items l).
Proof.
  destruct item as [opt outcome]. intros Hev Hitem [Hn Hl] H.
  destruct (isinstance_dict outcome) eqn:Ed.
  - destruct outcome as [| | | | | d]; try discriminate Ed.
    injection H as <-. cbn [nodes links]. split.
    + intros n Hin. apply in_app_or in Hin. destruct Hin as [Hin | Hin]; auto.
      apply in_map_iff in Hin. destruct Hin as [[idx [ev o]] [<- Hin]].
      apply in_enumerate_from in Hin. cbn [name children].
      eapply event_nested; eauto.
    + intros l Hin. apply in_app_or in Hin. destruct Hin as [Hin | Hin]; auto.
      apply in_map_iff in Hin. destruct Hin as [[ev o] [<- Hin]].
      exists opts, (JDict d). cbn [link_event link_option link_children fst].
      split; [exact Hev |]. split; [exact Hitem |]. exists ev, o. auto.
  - apply visit_option_terminal in H; [| exact Ed].
    destruct H as [evs' [lbs' [_ ->]]]. cbn [nodes links].
    split; [exact Hn |].
    intros l Hin. apply in_app_or in Hin. destruct Hin as [Hin | [<- | []]];
      auto.
    exists opts, outcome. cbn [link_event link_option link_children].
    split; [exact Hev |]. split; [exact Hitem |].
    destruct outcome; try reflexivity. discriminate Ed.
Qed.

Lemma visit_sound items node rest evs lbs lks work' evs' lbs' lks' :
  (forall n, In n (rest ++ [node]) -> event_of items (name n) (children n)) /\
    (forall l, In l lks -> edge_of items l) ->
  visit node rest (evs, lbs, lks) = Ret (work', (evs', lbs', lks')) ->
  (forall n, In n work' -> event_of items (name n) (children n)) /\
    (forall l, In l lks' -> edge_of items l).
Proof.
  intros [Hn Hl] H. unfold visit in H. inv_bind H. destruct a as [evs1 lbs1].
  inv_bind H. inv_bind H. injection H as <- _ _ <-.
  assert (Hc : children node = JDict a).
  { destruct (children node); try discriminate. injection Hm0 as <-.
    reflexivity. }
  assert (Hev : event_of items (name node) (JDict a)).
  { rewrite <- Hc. apply Hn. apply in_or_app. right. left. reflexivity. }
  eapply (for_each_inv
            (fun s => (forall n, In n (nodes s) ->
                                 event_of items (name n) (children n)) /\
                      (forall l, In l (links s) -> edge_of items l)));
    [| | exact Hm1].
  - intros s x s' Hx. apply (visit_option_sound items node a); assumption.
  - cbn [nodes links]. split; [| exact Hl].
    intros n Hin. apply Hn. apply in_or_app. auto.
Qed.

(** X10.  When [flatten] returns a graph, every link is an option edge of
    the document: its event is a top-level event or an event inside a nested
    outcome, that event has the link's option, and the link's target is the
    terminal outcome of the option or the name of an event of its nested
    outcome. *)
Theorem flatten_links_sound fuel items evs lbs lks :
  flatten fuel (JDict items) = Ret (Some (evs, lbs, lks)) ->
  forall l, In l lks ->
    exists opts outcome,
      event_of items (link_event l) (JDict opts) /\
      In (link_option l, outcome) opts /\
      match outcome with
      | JDict d => exists ev c, In (ev, c) d /\ link_children l = JStr ev
      | _ => link_children l = outcome
      end.
Proof.
  intros H. apply flatten_Some in H.
  destruct H as [items' [work [Heq [_ [Hwork Hrun]]]]].
  injection Heq as <-. apply top_level_nodes in Hwork.
  apply (while_nodes_inv
           (fun w g => (forall n, In n w ->
                                  event_of items (name n) (children n)) /\
                       (forall l, In l (snd g) -> edge_of items l)))
    in Hrun.
  - apply Hrun.
  - intros node rest [[e l] k] work' [[e' l'] k'] Hinv Hv. cbn [snd] in *.
    eapply visit_sound; eauto.
  - split; [| intros l []]. subst work. intros n Hn.
    apply in_map_iff in Hn. destruct Hn as [[idx [ev o]] [<- Hn]].
    apply in_enumerate_from in Hn. cbn [name children].
    apply event_top. exact Hn.
Qed.

Lemma flatten_links_sound_witness :
  flatten 3 (JDict [(lit "S", JDict two_branches_items)]) =
    Ret (Some two_branches_graph) /\
  In (mkLink (lit "S") (lit "B") (JStr (lit "U"))) (snd two_branches_graph) /\
  exists opts outcome,
    event_of [(lit "S", JDict two_branches_items)] (lit "S") (JDict opts) /\
    In (lit "B", outcome) opts /\
    match outcome with
    | JDict d => exists ev c, In (ev, c) d /\ JStr (lit "U") = JStr ev
    | _ => JStr (lit "U") = outcome
    end.
Proof.
  split; [vm_compute; reflexivity |]. split; [simpl; auto |].
  apply (flatten_links_sound 3 [(lit "S", JDict two_branches_items)]
           (fst (fst two_branches_graph)) (snd (fst two_branches_graph))
           (snd two_branches_graph) eq_refl
           (mkLink (lit "S") (lit "B") (JStr (lit "U")))).
  simpl. auto.
Defined.

Lemma has_origin_grow items lks lks' e :
  has_origin items lks e -> (forall l, In l lks -> In l lks') ->
  has_origin items lks' e.
Proof.
  intros [H | [l [Hl He]]] Hsub; [left; exact H | right; exists l; auto].
Qed.

Lemma visit_option_origin items node s item s' :
  (forall n, In n (nodes s) -> has_origin items (links s) (JStr (name n))) /\
    (forall e, In e (events s) -> has_origin items (links s) e) ->
  visit_option node s item = Ret s' ->
  (forall n, In n (nodes s') -> has_origin items (links s') (JStr (name n))) /\
    (forall e, In e (events s') -> has_origin items (links s') e) /\
    (forall l, In l (links s) -> In l (links s')).
Proof.
  destruct item as [opt outcome]. intros [Hn He] H.
  destruct (isinstance_dict outcome) eqn:Ed.
  - destruct outcome as [| | | | | d]; try discriminate Ed.
    injection H as <-. cbn [nodes links events].
    assert (Hsub : forall l, In l (links s) ->
              In l (links s ++
                    map (fun kv => mkLink (name node) opt (JStr (fst kv))) d))
      by (intros l Hl; apply in_or_app; auto).
    split; [| split; [| exact Hsub]].
    + intros n Hin. apply in_app_or in Hin. destruct Hin as [Hin | Hin].
      * eapply has_origin_grow; eauto.
      * apply in_map_iff in Hin. destruct Hin as [[idx [ev o]] [<- Hin]].
        apply in_enumerate_from in Hin. cbn [name]. right.
        exists (mkLink (name node) opt (JStr ev)). split; [| reflexivity].
        apply in_or_app. right. apply in_map_iff. exists (ev, o). auto.
    + intros e Hin. eapply has_origin_grow; eauto.
  - apply visit_option_terminal in H; [| exact Ed].
    destruct H as [evs' [lbs' [Hrec ->]]]. cbn [nodes links events].
    assert (Hsub : forall l, In l (links s) ->
              In l (links s ++ [mkLink (name node) opt outcome]))
      by (intros l Hl; apply in_or_app; auto).
    split; [| split; [| exact Hsub]].
    + intros n Hin. eapply has_origin_grow; eauto.
    + intros e Hin. apply (record_events_in _ _ _ _ _ _ Hrec) in Hin.
      destruct Hin as [Hin | ->]; [eapply has_origin_grow; eauto |].
      right. exists (mkLink (name node) opt outcome). split; [| reflexivity].
      apply in_or_app. right. left. reflexivity.
Qed.

Lemma visit_origin items node rest evs lbs lks work' evs' lbs' lks' :
  (forall n, In n (rest ++ [node]) -> has_origin items lks (JStr (name n))) /\
    (forall e, In e evs -> has_origin items lks e) ->
  visit node rest (evs, lbs, lks) = Ret (work', (evs', lbs', lks')) ->
  (forall n, In n work' -> has_origin items lks' (JStr (name n))) /\
    (forall e, In e evs' -> has_origin items lks' e).
Proof.
  intros [Hn He] H. unfold visit in H. inv_bind H. destruct a as [evs1 lbs1].
  inv_bind H. inv_bind H. injection H as <- <- _ <-.
  enough (Hfin : (forall n, In n (nodes a0) ->
                            has_origin items (links a0) (JStr (name n))) /\
                 (forall e, In e (events a0) ->
                            has_origin items (links a0) e)) by exact Hfin.
  eapply (for_each_inv
            (fun s => (forall n, In n (nodes s) ->
                         has_origin items (links s) (JStr (name n))) /\
                      (forall e, In e (events s) ->
                         has_origin items (links s) e)));
    [| | exact Hm1].
  - intros s x s' _ Hs Hbody.
    destruct (visit_option_origin items node s x s' Hs Hbody) as [H1 [H2 _]].
    auto.
  - cbn [nodes links events]. split.
    + intros n Hin. apply Hn. apply in_or_app. auto.
    + intros e Hin. apply (record_events_in _ _ _ _ _ _ Hm) in Hin.
      destruct Hin as [Hin | ->]; [auto |].
      apply Hn. apply in_or_app. right. left. reflexivity.
Qed.

(** X11.  When [flatten] returns a graph, every entry of [events] is the
    name of a top-level event of the document or the target of a link: the
    chart has no node without an edge other than top-level events. *)
Theorem flatten_events_origin fuel items evs lbs lks :
  flatten fuel (JDict items) = Ret (Some (evs, lbs, lks)) ->
  forall e, In e evs ->
    (exists k c, In (k, c) items /\ e = JStr k) \/
    (exists l, In l lks /\ e = link_children l).
Proof.
  intros H. apply flatten_Some in H.
  destruct H as [items' [work [Heq [_ [Hwork Hrun]]]]].
  injection Heq as <-. apply top_level_nodes in Hwork.
  apply (while_nodes_inv
           (fun w g => (forall n, In n w ->
                          has_origin items (snd g) (JStr (name n))) /\
                       (forall e, In e (fst (fst g)) ->
                          has_origin items (snd g) e)))
    in Hrun.
  - apply Hrun.
  - intros node rest [[e l] k] work' [[e' l'] k'] Hinv Hv. cbn [fst snd] in *.
    eapply visit_origin; eauto.
  - split; [| intros e []]. subst work. intros n Hn.
    apply in_map_iff in Hn. destruct Hn as [[idx [ev o]] [<- Hn]].
    apply in_enumerate_from in Hn. cbn [name]. left. exists ev, o. auto.
Qed.

Lemma flatten_events_origin_witness :
  flatten 3 (JDict [(lit "S", JDict two_branches_items)]) =
    Ret (Some two_branches_graph) /\
  In (JStr (lit "E2")) (fst (fst two_branches_graph)) /\
  ((exists k c, In (k, c) [(lit "S", JDict two_branches_items)] /\
                JStr (lit "E2") = JStr k) \/
   (exists l, In l (snd two_branches_graph) /\
              JStr (lit "E2") = link_children l)).
Proof.
  split; [vm_compute; reflexivity |]. split; [simpl; auto |].
  apply (flatten_events_origin 3 [(lit "S", JDict two_branches_items)]
           (fst (fst two_branches_graph)) (snd (fst two_branches_graph))
           (snd two_branches_graph) eq_refl (JStr (lit "E2"))).
  simpl. auto.
Defined.

(** ** Every occurrence is labelled *)

Lemma nth_error_grow {A : Type} (pre post : list (list A)) l x i l0 :
  nth_error (pre ++ l :: post) i = Some l0 ->
  exists l1, nth_error (pre ++ (l ++ x) :: post) i = Some l1 /\
             forall a, In a l0 -> In a l1.
Proof.
  revert i. induction pre as [| y pre IH]; intros [| i] H; simpl in *.
  - injection H as <-. exists (l ++ x). split; [reflexivity |].
    intros a Ha. apply in_or_app. auto.
  - exists l0. auto.
  - exists l0. auto.
  - apply IH. exact H.
Qed.

Lemma record_keeps nm pid evs lbs evs' lbs' e p :
  record nm pid evs lbs = Ret (evs', lbs') ->
  registered evs lbs e p -> registered evs' lbs' e p.
Proof.
  intros H [i [e' [l [He [Heq [Hl Hp]]]]]]. apply record_Ret in H.
  destruct H as [[_ [-> ->]] | [_ [-> [pre [l1 [post [-> ->]]]]]]].
  - exists i, e', l. repeat split; auto.
    + rewrite nth_error_app1; [exact He |]. apply nth_error_Some. congruence.
    + rewrite nth_error_app1; [exact Hl |]. apply nth_error_Some. congruence.
  - destruct (nth_error_grow pre post l1 [pid] i l Hl) as [l' [Hl' Hsub]].
    exists i, e', l'. auto.
Qed.

Lemma record_registers nm pid evs lbs evs' lbs' :
  labelled evs lbs -> py_eq nm nm = true ->
  record nm pid evs lbs = Ret (evs', lbs') ->
  registered evs' lbs' nm pid.
Proof.
  intros [Hlen _] Hrefl. unfold record.
  destruct (py_in nm evs) eqn:Ein; simpl; intros H.
  - destruct (py_index_found nm evs Ein) as [i [e [Hi [Hn He]]]].
    rewrite Hi in H. cbn [bind] in H. unfold append_at in H.
    destruct (nth_error lbs i) as [l |] eqn:El; [| discriminate].
    cbn [bind] in H. injection H as <- <-.
    exists i, e, (l ++ [pid]). repeat split; auto.
    + assert (Hi' : (i < length lbs)%nat)
        by (apply nth_error_Some; congruence).
      rewrite nth_error_app2; rewrite length_firstn;
        [| lia].
      replace (i - Nat.min i (length lbs))%nat with 0%nat by lia.
      reflexivity.
    + apply in_or_app. right. left. reflexivity.
  - injection H as <- <-. exists (length evs), nm, [pid]. repeat split; auto.
    + rewrite nth_error_app2, Nat.sub_diag; [reflexivity | lia].
    + rewrite Hlen, nth_error_app2, Nat.sub_diag; [reflexivity | lia].
    + left. reflexivity.
Qed.

Lemma for_each_registers node items :
  forall s s',
    labelled (events s) (labels s) ->
    for_each (visit_option node) s items = Ret s' ->
    labelled (events s') (labels s') /\
    (forall e p, registered (events s) (labels s) e p ->
                 registered (events s') (labels s') e p) /\
    (forall opt outcome,
        In (opt, outcome) items -> isinstance_dict outcome = false ->
        py_eq outcome outcome = true ->
        registered (events s') (labels s') outcome (end_id (id node))).
Proof.
  induction items as [| [opt outcome] items IH]; cbn [for_each];
    intros s s' Hl H.
  - injection H as <-. split; [exact Hl |]. split; [auto |].
    intros ? ? [].
  - inv_bind H.
    pose proof (visit_option_labelled node s _ a Hl Hm) as Hla.
    destruct (IH a s' Hla H) as [Hl' [Hmono Hterm]].
    split; [exact Hl' |].
    destruct (isinstance_dict outcome) eqn:Ed.
    + destruct outcome as [| | | | | d]; try discriminate Ed.
      injection Hm as <-. cbn [events labels] in *. split; [exact Hmono |].
      intros opt' outcome' [Heq | Hin] Hnd Hrefl.
      * injection Heq as <- <-. discriminate Hnd.
      * eapply Hterm; eauto.
    + apply visit_option_terminal in Hm; [| exact Ed].
      destruct Hm as [evs' [lbs' [Hrec ->]]]. cbn [events labels] in *.
      split.
      * intros e p Hreg. apply Hmono. eapply record_keeps; eauto.
      * intros opt' outcome' [Heq | Hin] Hnd Hrefl.
        -- injection Heq as <- <-. apply Hmono.
           apply (record_registers _ _ _ _ _ _ Hl Hrefl Hrec).
        -- eapply Hterm; eauto.
Qed.

Lemma visit_registers node rest evs lbs lks work' evs' lbs' lks' :
  labelled evs lbs ->
  visit node rest (evs, lbs, lks) = Ret (work', (evs', lbs', lks')) ->
  (forall e p, registered evs lbs e p -> registered evs' lbs' e p) /\
  visited evs' lbs' node.
Proof.
  intros Hl H. unfold visit in H. inv_bind H. destruct a as [evs1 lbs1].
  inv_bind H. inv_bind H. injection H as _ <- <- _.
  pose proof (record_labelled _ _ _ _ _ _ Hl Hm) as Hl1.
  destruct (for_each_registers node a
              {| nodes := rest; events := evs1; labels := lbs1;
                 links := lks; branch_idx := 0 |} a0 Hl1 Hm1)
    as [_ [Hmono Hterm]].
  cbn [events labels] in *. split; [| split].
  - intros e p Hreg. apply Hmono. eapply record_keeps; eauto.
  - apply Hmono.
    apply (record_registers (JStr (name node)) _ _ _ _ _ Hl
             (str_eqb_refl (name node)) Hm).
  - intros opts opt outcome Hc Hin Hnd Hrefl.
    destruct (children node); try discriminate. injection Hm0 as <-.
    injection Hc as <-. eapply Hterm; eauto.
Qed.

Lemma below_inv n m :
  below n m ->
  m = n \/
  exists opts entry,
    children n = JDict opts /\ In entry (enumerate (nested_entries opts)) /\
    below (child n entry) m.
Proof.
  induction 1 as [| m opts entry Hb IH Hc Hin]; [left; reflexivity |].
  right. destruct IH as [-> | [opts0 [entry0 [Hc0 [Hin0 Hb0]]]]].
  - exists opts, entry. split; [exact Hc |]. split; [exact Hin |].
    apply below_self.
  - exists opts0, entry0. split; [exact Hc0 |]. split; [exact Hin0 |].
    eapply below_child; eauto.
Qed.

Lemma visited_keeps evs lbs evs' lbs' m :
  (forall e p, registered evs lbs e p -> registered evs' lbs' e p) ->
  visited evs lbs m -> visited evs' lbs' m.
Proof.
  intros Hmono [Hn Ht]. split; [auto |].
  intros opts opt outcome Hc Hin Hnd Hrefl. apply Hmono. eapply Ht; eauto.
Qed.

(** When the walk ends, every occurrence has been visited. *)
Lemma flatten_visits fuel items evs lbs lks :
  flatten fuel (JDict items) = Ret (Some (evs, lbs, lks)) ->
  forall m, occurs items m -> visited evs lbs m.
Proof.
  intros H. apply flatten_Some in H.
  destruct H as [items' [work [Heq [_ [Hwork Hrun]]]]].
  injection Heq as <-. apply top_level_nodes in Hwork.
  fold (enumerate items) in Hwork. fold (top_nodes items) in Hwork.
  apply (while_nodes_inv
           (fun w g =>
              labelled (fst (fst g)) (snd (fst g)) /\
              forall m, occurs items m ->
                visited (fst (fst g)) (snd (fst g)) m \/
                exists n, In n w /\ below n m)) in Hrun.
  - destruct Hrun as [_ Hall]. cbn [fst snd] in Hall. intros m Hm.
    destruct (Hall m Hm) as [Hv | [n [[] _]]]. exact Hv.
  - intros node rest [[e l] k] work' [[e' l'] k'] [Hl Hall] Hv.
    cbn [fst snd] in *. split; [eapply visit_labelled; eauto |].
    destruct (visit_registers _ _ _ _ _ _ _ _ _ Hl Hv) as [Hmono Hnode].
    apply visit_pushed in Hv. destruct Hv as [opts [Hc ->]].
    intros m Hm. destruct (Hall m Hm) as [Hdone | [n [Hn Hb]]].
    + left. eapply visited_keeps; eauto.
    + apply in_app_or in Hn. destruct Hn as [Hn | [<- | []]].
      * right. exists n. split; [apply in_or_app; auto | exact Hb].
      * apply below_inv in Hb.
        destruct Hb as [-> | [opts0 [entry [Hc0 [Hin Hb]]]]];
          [left; exact Hnode |].
        rewrite Hc in Hc0. injection Hc0 as <-.
        right. exists (child node entry). split; [| exact Hb].
        apply in_or_app. right. unfold pushed_running. apply in_map. exact Hin.
  - split; [split; [reflexivity | constructor] |].
    intros m [t [Ht Hb]]. right. exists t. subst work. auto.
Qed.

(** X12.  When [flatten] returns a graph, every occurrence of an event in
    the document (the top-level events, with ids [A], [B], ...; below an
    occurrence, the events of its nested outcomes, numbered by the running
    counter) is labelled: its name is an entry of [events] and its path id
    is in the entry of [labels] at the same position. *)
Theorem flatten_labels_occurrences fuel items evs lbs lks :
  flatten fuel (JDict items) = Ret (Some (evs, lbs, lks)) ->
  forall m, occurs items m ->
    exists i l,
      nth_error evs i = Some (JStr (name m)) /\
      nth_error lbs i = Some l /\ In (id m) l.
Proof.
  intros H m Hm. destruct (flatten_visits _ _ _ _ _ H m Hm) as [Hreg _].
  destruct Hreg as [i [e [l [He [Heq [Hl Hin]]]]]].
  destruct e; simpl in Heq; try discriminate.
  apply str_eqb_eq in Heq. subst. exists i, l. auto.
Qed.

Lemma scenario3_inner_occurs : occurs scenario3_items scenario3_inner.
Proof.
  pose (opts := [(lit "A",
                  JDict [(lit "S", JDict [(lit "B", JStr (lit "E1"))])])]).
  pose (t := mkNode (lit "S") (JDict opts) (lit "A")).
  exists t. split; [left; reflexivity |].
  exact (below_child t t opts
           (0, (lit "S", JDict [(lit "B", JStr (lit "E1"))]))
           (below_self t) eq_refl (or_introl eq_refl)).
Defined.

Lemma flatten_labels_occurrences_witness :
  flatten 2 (JDict scenario3_items) = Ret (Some scenario3_graph) /\
  occurs scenario3_items scenario3_inner /\
  exists i l,
    nth_error (fst (fst scenario3_graph)) i =
      Some (JStr (name scenario3_inner)) /\
    nth_error (snd (fst scenario3_graph)) i = Some l /\
    In (id scenario3_inner) l.
Proof.
  split; [vm_compute; reflexivity |].
  split; [exact scenario3_inner_occurs |].
  apply (flatten_labels_occurrences 2 scenario3_items
           (fst (fst scenario3_graph)) (snd (fst scenario3_graph))
           (snd scenario3_graph) eq_refl scenario3_inner
           scenario3_inner_occurs).
Defined.

Lemma nested_entries_wf opts ev c :
  wf_json (JDict opts) = true -> In (ev, c) (nested_entries opts) ->
  wf_json c = true.
Proof.
  intros Hwf Hin. unfold nested_entries in Hin. apply in_flat_map in Hin.
  destruct Hin as [[opt outcome] [Hopt Hin]]. cbn [snd] in Hin.
  destruct outcome as [| | | | | d]; try contradiction.
  apply (wf_json_entry d ev c); [| exact Hin].
  apply (wf_json_entry opts opt (JDict d)); assumption.
Qed.

Lemma below_wf n m :
  wf_json (children n) = true -> below n m -> wf_json (children m) = true.
Proof.
  intros Hwf. induction 1 as [| m opts [j [ev c]] Hb IH Hc Hin];
    [exact Hwf |].
  cbn [child children]. apply in_enumerate_from in Hin.
  rewrite Hc in IH. eapply nested_entries_wf; eauto.
Qed.

Lemma occurs_wf items m :
  wf_json (JDict items) = true -> occurs items m ->
  wf_json (children m) = true.
Proof.
  intros Hwf [t [Ht Hb]]. apply (below_wf t m); [| exact Hb].
  unfold top_nodes in Ht. apply in_map_iff in Ht.
  destruct Ht as [[idx [ev o]] [<- Ht]]. apply in_enumerate_from in Ht.
  cbn [children]. eapply wf_json_entry; eauto.
Qed.

(** X13.  When [flatten] returns a graph for a decoded document, every
    terminal outcome of every occurrence of an event is labelled: an entry
    of [events] equals the outcome, and the entry of [labels] at the same
    position holds the path id of the occurrence followed by ["-end"]. *)
Theorem flatten_labels_outcomes fuel items evs lbs lks :
  wf_json (JDict items) = true ->
  flatten fuel (JDict items) = Ret (Some (evs, lbs, lks)) ->
  forall m opts opt outcome,
    occurs items m -> children m = JDict opts -> In (opt, outcome) opts ->
    isinstance_dict outcome = false ->
    exists i e l,
      nth_error evs i = Some e /\ py_eq outcome e = true /\
      nth_error lbs i = Some l /\ In (end_id (id m)) l.
Proof.
  intros Hwf H m opts opt outcome Hm Hc Hin Hnd.
  destruct (flatten_visits _ _ _ _ _ H m Hm) as [_ Hterm].
  apply (Hterm opts opt outcome Hc Hin Hnd).
  apply py_eq_refl. apply (wf_json_entry opts opt outcome); [| exact Hin].
  rewrite <- Hc. apply (occurs_wf items m Hwf Hm).
Qed.

Lemma flatten_labels_outcomes_witness :
  wf_json (JDict scenario3_items) = true /\
  flatten 2 (JDict scenario3_items) = Ret (Some scenario3_graph) /\
  occurs scenario3_items scenario3_inner /\
  children scenario3_inner = JDict [(lit "B", JStr (lit "E1"))] /\
  In (lit "B", JStr (lit "E1")) [(lit "B", JStr (lit "E1"))] /\
  isinstance_dict (JStr (lit "E1")) = false /\
  exists i e l,
    nth_error (fst (fst scenario3_graph)) i = Some e /\
    py_eq (JStr (lit "E1")) e = true /\
    nth_error (snd (fst scenario3_graph)) i = Some l /\
    In (end_id (id scenario3_inner)) l.
Proof.
  split; [vm_compute; reflexivity |]. split; [vm_compute; reflexivity |].
  split; [exact scenario3_inner_occurs |]. split; [reflexivity |].
  split; [left; reflexivity |]. split; [reflexivity |].
  apply (flatten_labels_outcomes 2 scenario3_items
           (fst (fst scenario3_graph)) (snd (fst scenario3_graph))
           (snd scenario3_graph) eq_refl eq_refl scenario3_inner
           [(lit "B", JStr (lit "E1"))] (lit "B") (JStr (lit "E1"))
           scenario3_inner_occurs eq_refl (or_introl eq_refl) eq_refl).
Defined.

(** ** Every label has an occurrence *)

Lemma nth_error_replace {A : Type} (l : list A) (x : A) :
  forall i0 i,
    (i0 < length l)%nat ->
    nth_error (firstn i0 l ++ x :: skipn (S i0) l) i =
    if (i =? i0)%nat then Some x else nth_error l i.
Proof.
  induction l as [| y l IH]; intros i0 i Hlt; simpl in Hlt; [lia |].
  destruct i0 as [| i0]; destruct i as [| i]; simpl; try reflexivity.
  apply IH. lia.
Qed.

Lemma record_sound items nm pid evs lbs evs' lbs' :
  labelled evs lbs -> labels_sound items evs lbs ->
  py_eq nm nm = true ->
  (forall e, py_eq nm e = true -> label_origin items e pid) ->
  record nm pid evs lbs = Ret (evs', lbs') ->
  labels_sound items evs' lbs'.
Proof.
  intros [Hlen _] Hs Hrefl Hnew. unfold record.
  destruct (py_in nm evs) eqn:Ein; cbn [negb]; intros H.
  - destruct (py_index_found nm evs Ein) as [i0 [e0 [Hi [Hn He]]]].
    rewrite Hi in H. cbn [bind] in H. unfold append_at in H.
    destruct (nth_error lbs i0) as [l0 |] eqn:El; [| discriminate].
    cbn [bind] in H. injection H as <- <-.
    assert (Hlt : (i0 < length lbs)%nat) by (apply nth_error_Some; congruence).
    intros i l p Hl Hp.
    change (nth_error (firstn i0 lbs ++ (l0 ++ [pid]) :: skipn (S i0) lbs) i
            = Some l) in Hl.
    rewrite nth_error_replace in Hl by exact Hlt.
    destruct (i =? i0)%nat eqn:Ei.
    + apply Nat.eqb_eq in Ei. subst i. injection Hl as <-.
      apply in_app_or in Hp. destruct Hp as [Hp | [<- | []]].
      * apply (Hs i0 l0 p El Hp).
      * exists e0. auto.
    + apply (Hs i l p Hl Hp).
  - injection H as <- <-. intros i l p Hl Hp.
    destruct (Nat.lt_ge_cases i (length lbs)) as [Hlt | Hge].
    + rewrite nth_error_app1 in Hl by exact Hlt.
      rewrite nth_error_app1 by lia. apply (Hs i l p Hl Hp).
    + rewrite nth_error_app2 in Hl by exact Hge.
      destruct (i - length lbs)%nat as [| j] eqn:Ej; simpl in Hl.
      * injection Hl as <-. destruct Hp as [<- | []].
        exists nm. split; [| auto].
        rewrite nth_error_app2 by lia.
        replace (i - length evs)%nat with 0%nat by lia. reflexivity.
      * destruct j; discriminate Hl.
Qed.

Lemma visit_option_labels_sound items node opts s item s' :
  occurs items node -> children node = JDict opts ->
  wf_json (JDict opts) = true -> In item opts ->
  labelled (events s) (labels s) /\
    labels_sound items (events s) (labels s) ->
  visit_option node s item = Ret s' ->
  labelled (events s') (labels s') /\
    labels_sound items (events s') (labels s').
Proof.
  destruct item as [opt outcome]. intros Hocc Hc Hwf Hin [Hl Hs] H.
  split; [eapply visit_option_labelled; eauto |].
  destruct (isinstance_dict outcome) eqn:Ed.
  - destruct outcome as [| | | | | d]; try discriminate Ed.
    injection H as <-. exact Hs.
  - apply visit_option_terminal in H; [| exact Ed].
    destruct H as [evs' [lbs' [Hrec ->]]]. cbn [events labels].
    apply (record_sound items outcome (end_id (id node)) (events s)
             (labels s)); auto.
    + apply py_eq_refl. eapply wf_json_entry; eauto.
    + intros e He. right. exists node, opts, opt, outcome. auto 10.
Qed.

Lemma visit_labels_sound items node rest evs lbs lks work' evs' lbs' lks' :
  occurs items node -> wf_json (children node) = true ->
  labelled evs lbs -> labels_sound items evs lbs ->
  visit node rest (evs, lbs, lks) = Ret (work', (evs', lbs', lks')) ->
  labels_sound items evs' lbs'.
Proof.
  intros Hocc Hwf Hl Hs H. unfold visit in H. inv_bind H.
  destruct a as [evs1 lbs1]. inv_bind H. inv_bind H.
  injection H as _ <- <- _.
  assert (Hc : children node = JDict a).
  { destruct (children node); try discriminate. injection Hm0 as <-.
    reflexivity. }
  rewrite Hc in Hwf.
  enough (Hfin : labelled (events a0) (labels a0) /\
                 labels_sound items (events a0) (labels a0)) by apply Hfin.
  eapply (for_each_inv
            (fun s => labelled (events s) (labels s) /\
                      labels_sound items (events s) (labels s)));
    [| | exact Hm1].
  - intros s x s' Hx.
    apply (visit_option_labels_sound items node a); assumption.
  - cbn [events labels]. split; [eapply record_labelled; eauto |].
    apply (record_sound items (JStr (name node)) (id node) evs lbs); auto.
    + simpl. apply str_eqb_refl.
    + intros e He. left. exists node. split; [exact Hocc |].
      split; [reflexivity |]. destruct e; simpl in He; try discriminate.
      apply str_eqb_eq in He. subst. reflexivity.
Qed.

(** X14.  When [flatten] returns a graph for a decoded document, every path
    id in [labels[i]] has its origin in [events[i]]: it is the id of an
    occurrence of the event [events[i]], or the id of an occurrence followed
    by ["-end"] where that occurrence has a terminal outcome equal to
    [events[i]]. *)
Theorem flatten_labels_sound fuel items evs lbs lks :
  wf_json (JDict items) = true ->
  flatten fuel (JDict items) = Ret (Some (evs, lbs, lks)) ->
  forall i l p,
    nth_error lbs i = Some l -> In p l ->
    exists e,
      nth_error evs i = Some e /\
      ((exists m, occurs items m /\ p = id m /\ e = JStr (name m)) \/
       (exists m opts opt outcome,
           occurs items m /\ children m = JDict opts /\
           In (opt, outcome) opts /\ isinstance_dict outcome = false /\
           p = end_id (id m) /\ py_eq outcome e = true)).
Proof.
  intros Hwf H. apply flatten_Some in H.
  destruct H as [items' [work [Heq [_ [Hwork Hrun]]]]].
  injection Heq as <-. apply top_level_nodes in Hwork.
  fold (enumerate items) in Hwork. fold (top_nodes items) in Hwork.
  apply (while_nodes_inv
           (fun w g =>
              labelled (fst (fst g)) (snd (fst g)) /\
              labels_sound items (fst (fst g)) (snd (fst g)) /\
              forall n, In n w -> occurs items n)) in Hrun.
  - destruct Hrun as [_ [Hs _]]. exact Hs.
  - intros node rest [[e l] k] work' [[e' l'] k'] [Hl [Hs Hocc]] Hv.
    cbn [fst snd] in *.
    assert (Hnode : occurs items node).
    { apply Hocc. apply in_or_app. right. left. reflexivity. }
    split; [eapply visit_labelled; eauto |]. split.
    + eapply visit_labels_sound; eauto. eapply occurs_wf; eauto.
    + apply visit_pushed in Hv. destruct Hv as [opts [Hc ->]].
      intros n Hn. apply in_app_or in Hn. destruct Hn as [Hn | Hn].
      * apply Hocc. apply in_or_app. auto.
      * unfold pushed_running in Hn. apply in_map_iff in Hn.
        destruct Hn as [entry [<- Hin]].
        destruct Hnode as [t [Ht Hb]]. exists t. split; [exact Ht |].
        eapply below_child; eauto.
  - split; [split; [reflexivity | constructor] |]. split.
    + intros i l p Hl. destruct i; discriminate Hl.
    + intros n Hn. exists n. subst work. split; [exact Hn | apply below_self].
Qed.

Lemma flatten_labels_sound_witness :
  wf_json (JDict scenario3_items) = true /\
  flatten 2 (JDict scenario3_items) = Ret (Some scenario3_graph) /\
  nth_error (snd (fst scenario3_graph)) 0 = Some [lit "A"; lit "A-0"] /\
  In (lit "A-0") [lit "A"; lit "A-0"] /\
  exists e,
    nth_error (fst (fst scenario3_graph)) 0 = Some e /\
    ((exists m, occurs scenario3_items m /\ lit "A-0" = id m /\
                e = JStr (name m)) \/
     (exists m opts opt outcome,
         occurs scenario3_items m /\ children m = JDict opts /\
         In (opt, outcome) opts /\ isinstance_dict outcome = false /\
         lit "A-0" = end_id (id m) /\ py_eq outcome e = true)).
Proof.
  split; [vm_compute; reflexivity |]. split; [vm_compute; reflexivity |].
  split; [reflexivity |]. split; [right; left; reflexivity |].
  apply (flatten_labels_sound 2 scenario3_items (fst (fst scenario3_graph))
           (snd (fst scenario3_graph)) (snd scenario3_graph) eq_refl eq_refl
           0%nat [lit "A"; lit "A-0"] (lit "A-0") eq_refl
           (or_intror (or_introl eq_refl))).
Defined.

(** ** Every option edge is a link *)

Lemma visit_option_links node s item s' :
  visit_option node s item = Ret s' ->
  (forall l, In l (links s) -> In l (links s')) /\
  match snd item with
  | JDict d =>
      forall ev c, In (ev, c) d ->
        In (mkLink (name node) (fst item) (JStr ev)) (links s')
  | outcome => In (mkLink (name node) (fst item) outcome) (links s')
  end.
Proof.
  destruct item as [opt outcome]. cbn [fst snd]. intros H.
  destruct (isinstance_dict outcome) eqn:Ed.
  - destruct outcome as [| | | | | d]; try discriminate Ed.
    injection H as <-. cbn [links]. split.
    + intros l Hl. apply in_or_app. auto.
    + intros ev c Hin. apply in_or_app. right.
      apply in_map_iff. exists (ev, c). auto.
  - apply visit_option_terminal in H; [| exact Ed].
    destruct H as [evs' [lbs' [_ ->]]]. cbn [links]. split.
    + intros l Hl. apply in_or_app. auto.
    + destruct outcome; try discriminate Ed;
        apply in_or_app; right; left; reflexivity.
Qed.

Lemma for_each_links node items :
  forall s s',
    for_each (visit_option node) s items = Ret s' ->
    (forall l, In l (links s) -> In l (links s')) /\
    forall opt outcome, In (opt, outcome) items ->
      match outcome with
      | JDict d =>
          forall ev c, In (ev, c) d ->
            In (mkLink (name node) opt (JStr ev)) (links s')
      | _ => In (mkLink (name node) opt outcome) (links s')
      end.
Proof.
  induction items as [| item items IH]; cbn [for_each]; intros s s' H.
  - injection H as <-. split; [auto | intros ? ? []].
  - inv_bind H. apply visit_option_links in Hm. destruct Hm as [Hsub Hitem].
    destruct (IH a s' H) as [Hsub' Hrest]. split; [auto |].
    intros opt outcome [-> | Hin]; [| apply Hrest; exact Hin].
    cbn [fst snd] in Hitem.
    destruct outcome; try (apply Hsub'; exact Hitem).
    intros ev c Hd. apply Hsub'. eapply Hitem. exact Hd.
Qed.

Lemma visit_links node rest evs lbs lks work' evs' lbs' lks' :
  visit node rest (evs, lbs, lks) = Ret (work', (evs', lbs', lks')) ->
  (forall l, In l lks -> In l lks') /\ options_linked lks' node.
Proof.
  intros H. unfold visit in H. inv_bind H. destruct a as [evs1 lbs1].
  inv_bind H. inv_bind H. injection H as _ _ _ <-.
  apply for_each_links in Hm1. cbn [links] in Hm1.
  destruct Hm1 as [Hsub Hall]. split; [exact Hsub |].
  intros opts opt outcome Hc Hin.
  destruct (children node); try discriminate. injection Hm0 as <-.
  injection Hc as <-. apply Hall. exact Hin.
Qed.

Lemma options_linked_grow lks lks' m :
  (forall l, In l lks -> In l lks') ->
  options_linked lks m -> options_linked lks' m.
Proof.
  intros Hsub Hm opts opt outcome Hc Hin.
  specialize (Hm opts opt outcome Hc Hin).
  destruct outcome; try (apply Hsub; exact Hm).
  intros ev c Hd. apply Hsub. eapply Hm. exact Hd.
Qed.

(** X15.  When [flatten] returns a graph, every option edge of the document
    is a link: for every occurrence of an event and every option of it,
    [links] holds the link to the terminal outcome, or the links to all the
    events of the nested outcome. *)
Theorem flatten_links_all_edges fuel items evs lbs lks :
  flatten fuel (JDict items) = Ret (Some (evs, lbs, lks)) ->
  forall m opts opt outcome,
    occurs items m -> children m = JDict opts -> In (opt, outcome) opts ->
    match outcome with
    | JDict d =>
        forall ev c, In (ev, c) d -> In (mkLink (name m) opt (JStr ev)) lks
    | _ => In (mkLink (name m) opt outcome) lks
    end.
Proof.
  intros H. apply flatten_Some in H.
  destruct H as [items' [work [Heq [_ [Hwork Hrun]]]]].
  injection Heq as <-. apply top_level_nodes in Hwork.
  fold (enumerate items) in Hwork. fold (top_nodes items) in Hwork.
  apply (while_nodes_inv
           (fun w g =>
              True /\
              forall m, occurs items m ->
                options_linked (snd g) m \/ exists n, In n w /\ below n m))
    in Hrun.
  - destruct Hrun as [_ Hrun]. cbn [snd] in Hrun.
    intros m opts opt outcome Hm.
    destruct (Hrun m Hm) as [Hdone | [n [[] _]]]. apply Hdone.
  - intros node rest [[e l] k] work' [[e' l'] k'] [_ Hall] Hv. cbn [snd] in *.
    split; [exact I |].
    destruct (visit_links _ _ _ _ _ _ _ _ _ Hv) as [Hsub Hnode].
    apply visit_pushed in Hv. destruct Hv as [opts [Hc ->]].
    intros m Hm. destruct (Hall m Hm) as [Hdone | [n [Hn Hb]]].
    + left. eapply options_linked_grow; eauto.
    + apply in_app_or in Hn. destruct Hn as [Hn | [<- | []]].
      * right. exists n. split; [apply in_or_app; auto | exact Hb].
      * apply below_inv in Hb.
        destruct Hb as [-> | [opts0 [entry [Hc0 [Hin Hb]]]]];
          [left; exact Hnode |].
        rewrite Hc in Hc0. injection Hc0 as <-.
        right. exists (child node entry). split; [| exact Hb].
        apply in_or_app. right. unfold pushed_running. apply in_map. exact Hin.
  - split; [exact I |]. intros m [t [Ht Hb]]. right. exists t. subst work. auto.
Qed.

Lemma flatten_links_all_edges_witness :
  flatten 2 (JDict scenario3_items) = Ret (Some scenario3_graph) /\
  occurs scenario3_items scenario3_inner /\
  children scenario3_inner = JDict [(lit "B", JStr (lit "E1"))] /\
  In (lit "B", JStr (lit "E1")) [(lit "B", JStr (lit "E1"))] /\
  In (mkLink (name scenario3_inner) (lit "B") (JStr (lit "E1")))
    (snd scenario3_graph).
Proof.
  split; [vm_compute; reflexivity |].
  split; [exact scenario3_inner_occurs |]. split; [reflexivity |].
  split; [left; reflexivity |].
  exact (flatten_links_all_edges 2 scenario3_items
           (fst (fst scenario3_graph)) (snd (fst scenario3_graph))
           (snd scenario3_graph) eq_refl scenario3_inner
           [(lit "B", JStr (lit "E1"))] (lit "B") (JStr (lit "E1"))
           scenario3_inner_occurs eq_refl (or_introl eq_refl)).
Defined.

(** ** Path ids, occurrence by occurrence *)

Lemma end_id_inj p q : end_id p = end_id q -> p = q.
Proof. unfold end_id. apply app_inv_tail. Qed.

Lemma not_end_id_neq x p : is_end_id x = false -> x <> end_id p.
Proof. intros Hx ->. rewrite is_end_id_end_id in Hx. discriminate. Qed.

Lemma record_count_occ nm pid evs lbs evs' lbs' :
  record nm pid evs lbs = Ret (evs', lbs') ->
  forall x,
    count_occ pystr_eq_dec (concat lbs') x =
    (count_occ pystr_eq_dec (concat lbs) x +
     if pystr_eq_dec pid x then 1 else 0)%nat.
Proof.
  intros H x. apply record_concat in H.
  rewrite (proj1 (Permutation_count_occ pystr_eq_dec _ _) H x).
  simpl. destruct (pystr_eq_dec pid x); lia.
Qed.

Lemma terminal_count_cons item opts :
  terminal_count (item :: opts) =
  (terminal_count [item] + terminal_count opts)%nat.
Proof.
  unfold terminal_count. simpl.
  destruct (negb (isinstance_dict (snd item))); reflexivity.
Qed.

Lemma visit_option_count_occ node s item s' :
  visit_option node s item = Ret s' ->
  forall x,
    count_occ pystr_eq_dec (concat (labels s')) x =
    (count_occ pystr_eq_dec (concat (labels s)) x +
     if pystr_eq_dec (end_id (id node)) x then terminal_count [item] else 0)%nat.
Proof.
  destruct item as [opt outcome]. intros H x.
  destruct (isinstance_dict outcome) eqn:Ed.
  - destruct outcome as [| | | | | d]; try discriminate Ed.
    injection H as <-. cbn [labels].
    change (terminal_count [(opt, JDict d)]) with 0%nat.
    destruct (pystr_eq_dec (end_id (id node)) x); lia.
  - apply visit_option_terminal in H; [| exact Ed].
    destruct H as [evs' [lbs' [Hrec ->]]]. cbn [labels].
    rewrite (record_count_occ _ _ _ _ _ _ Hrec x).
    replace (terminal_count [(opt, outcome)]) with 1%nat
      by (unfold terminal_count; cbn [filter snd]; rewrite Ed; reflexivity).
    reflexivity.
Qed.

Lemma for_each_count_occ node items :
  forall s s',
    for_each (visit_option node) s items = Ret s' ->
    forall x,
      count_occ pystr_eq_dec (concat (labels s')) x =
      (count_occ pystr_eq_dec (concat (labels s)) x +
       if pystr_eq_dec (end_id (id node)) x then terminal_count items else 0)%nat.
Proof.
  induction items as [| item items IH]; cbn [for_each]; intros s s' H x.
  - injection H as <-. change (terminal_count []) with 0%nat.
    destruct (pystr_eq_dec (end_id (id node)) x); lia.
  - inv_bind H. rewrite (IH a s' H x).
    rewrite (visit_option_count_occ node s item a Hm x).
    rewrite (terminal_count_cons item items).
    destruct (pystr_eq_dec (end_id (id node)) x); lia.
Qed.

(** What one iteration adds to [labels]: the path id of the node, once, and
    that id followed by ["-end"], once per terminal outcome of the node. *)
Lemma visit_count_occ node rest evs lbs lks work' evs' lbs' lks' :
  visit node rest (evs, lbs, lks) = Ret (work', (evs', lbs', lks')) ->
  forall x,
    count_occ pystr_eq_dec (concat lbs') x =
    (count_occ pystr_eq_dec (concat lbs) x +
     (if pystr_eq_dec (id node) x then 1 else 0) +
     (if pystr_eq_dec (end_id (id node)) x
      then terminals (children node) else 0))%nat.
Proof.
  intros H x. unfold visit in H. inv_bind H. destruct a as [evs1 lbs1].
  inv_bind H. inv_bind H. injection H as _ _ <- _.
  rewrite (for_each_count_occ node a _ a0 Hm1 x). cbn [labels].
  rewrite (record_count_occ _ _ _ _ _ _ Hm x).
  destruct (children node); try discriminate. injection Hm0 as <-.
  reflexivity.
Qed.

Lemma visit_counted node rest evs lbs lks work' evs' lbs' lks' :
  fresh_ids (node_ids lbs) (map id (rest ++ [node])) ->
  ends_traced lbs ->
  visit node rest (evs, lbs, lks) = Ret (work', (evs', lbs', lks')) ->
  (forall m, counted lbs m -> counted lbs' m) /\
  counted lbs' node /\
  (forall x, In x (concat lbs') ->
             In x (concat lbs) \/ x = id node \/ x = end_id (id node)).
Proof.
  intros [Hnd [_ Hend]] Ht Hv.
  pose proof (visit_count_occ _ _ _ _ _ _ _ _ _ Hv) as Hcount.
  rewrite map_app in Hnd, Hend. cbn [map] in Hnd, Hend.
  assert (Hpend : In (id node) (map id rest ++ [id node]))
    by (apply in_or_app; right; left; reflexivity).
  assert (Hnode : is_end_id (id node) = false) by (apply Hend; exact Hpend).
  assert (Hnew : forall p, In p (node_ids lbs) -> p <> id node).
  { intros p Hp ->. apply (NoDup_app_disjoint _ _ _ Hnd Hp Hpend). }
  assert (Hx : forall x, In x (concat lbs') ->
             In x (concat lbs) \/ x = id node \/ x = end_id (id node)).
  { intros x Hin. apply (count_occ_In pystr_eq_dec) in Hin.
    rewrite Hcount in Hin.
    destruct (pystr_eq_dec (id node) x) as [<- | _]; [auto |].
    destruct (pystr_eq_dec (end_id (id node)) x) as [<- | _]; [auto |].
    left. apply (count_occ_In pystr_eq_dec). lia. }
  assert (Hin' : forall x, count_occ pystr_eq_dec (concat lbs') x = 1%nat \/
                           In x (concat lbs) -> In x (concat lbs')).
  { intros x Hc. apply (count_occ_In pystr_eq_dec). rewrite Hcount.
    destruct Hc as [Hc | Hc].
    - rewrite Hcount in Hc. lia.
    - apply (count_occ_In pystr_eq_dec) in Hc. lia. }
  split; [| split; [| exact Hx]].
  - intros m [Hm [Hc1 Hc2]].
    pose proof (proj1 (node_ids_in _ _) Hm) as [Hmin Hmend].
    assert (Hne : id node <> id m) by (intros Heq; apply (Hnew (id m) Hm); auto).
    split; [| split].
    + apply node_ids_in. split; [apply Hin'; auto | exact Hmend].
    + rewrite Hcount, Hc1.
      destruct (pystr_eq_dec (id node) (id m)) as [Heq | _]; [contradiction |].
      destruct (pystr_eq_dec (end_id (id node)) (id m)) as [Heq | _]; [| lia].
      exfalso. apply (not_end_id_neq _ (id node) Hmend). auto.
    + rewrite Hcount, Hc2.
      destruct (pystr_eq_dec (id node) (end_id (id m))) as [Heq | _].
      { exfalso. apply (not_end_id_neq _ (id m) Hnode). exact Heq. }
      destruct (pystr_eq_dec (end_id (id node)) (end_id (id m))) as [Heq | _];
        [| lia].
      apply end_id_inj in Heq. contradiction.
  - assert (H0 : count_occ pystr_eq_dec (concat lbs) (id node) = 0%nat).
    { apply count_occ_not_In. intros Hin.
      apply (Hnew (id node)); [| reflexivity].
      apply node_ids_in. auto. }
    assert (H1 : count_occ pystr_eq_dec (concat lbs) (end_id (id node)) = 0%nat).
    { apply count_occ_not_In. intros Hin.
      destruct (Ht _ Hin (is_end_id_end_id _)) as [p [Hp Heq]].
      apply end_id_inj in Heq. apply (Hnew p Hp). auto. }
    assert (Hc1 : count_occ pystr_eq_dec (concat lbs') (id node) = 1%nat).
    { rewrite Hcount, H0.
      destruct (pystr_eq_dec (id node) (id node)) as [_ | Hn]; [| contradiction].
      destruct (pystr_eq_dec (end_id (id node)) (id node)) as [Heq | _]; [| lia].
      exfalso. apply (not_end_id_neq _ (id node) Hnode). auto. }
    split; [| split; [exact Hc1 |]].
    + apply node_ids_in. split; [apply Hin'; auto | exact Hnode].
    + rewrite Hcount, H1.
      destruct (pystr_eq_dec (id node) (end_id (id node))) as [Heq | _].
      { exfalso. apply (not_end_id_neq _ (id node) Hnode). exact Heq. }
      destruct (pystr_eq_dec (end_id (id node)) (end_id (id node)))
        as [_ | Hn]; [lia | contradiction].
Qed.

Lemma enumerate_from_functional {A : Type} (l : list A) i j (x y : A) :
  In (j, x) (enumerate_from i l) -> In (j, y) (enumerate_from i l) -> x = y.
Proof.
  revert i. induction l as [| z l IH]; simpl; intros i Hx Hy; [contradiction |].
  destruct Hx as [Hx | Hx]; destruct Hy as [Hy | Hy].
  - injection Hx as _ <-. injection Hy as _ <-. reflexivity.
  - injection Hx as <- _. apply enumerate_from_bounds in Hy. lia.
  - injection Hy as <- _. apply enumerate_from_bounds in Hx. lia.
  - eapply IH; eauto.
Qed.

Lemma top_nodes_shape items t :
  In t (top_nodes items) ->
  exists idx ev c,
    t = mkNode ev c [ord_A + idx] /\ In (idx, (ev, c)) (enumerate items).
Proof.
  unfold top_nodes. intros H. apply in_map_iff in H.
  destruct H as [[idx [ev c]] [<- Hin]]. exists idx, ev, c. auto.
Qed.

Lemma top_id_not_child items t p j :
  In t (top_nodes items) -> id t <> child_id p j.
Proof.
  intros Ht Heq. apply top_nodes_shape in Ht.
  destruct Ht as [idx [ev [c [-> Hin]]]]. cbn [id] in Heq.
  apply enumerate_from_bounds in Hin. unfold child_id in Heq.
  change (lit "-") with [45] in Heq.
  destruct p as [| a p]; simpl in Heq.
  - injection Heq as Heq _. unfold ord_A in Heq. lia.
  - injection Heq as _ Heq. destruct p; discriminate Heq.
Qed.

(** Two occurrences with the same path id are the same occurrence. *)
Lemma occurs_id_inj items m m' :
  occurs items m -> occurs items m' -> id m = id m' -> m = m'.
Proof.
  intros [t [Ht Hb]] [t' [Ht' Hb']]. revert t' m' Ht' Hb'.
  induction Hb as [| m0 opts [j [ev c]] Hb0 IH Hc Hin];
    intros t' m' Ht' Hb' Hid;
    destruct Hb' as [| m0' opts' [j' [ev' c']] Hb0' Hc' Hin'].
  - apply top_nodes_shape in Ht, Ht'.
    destruct Ht as [idx [ev [c [-> Hin]]]].
    destruct Ht' as [idx' [ev' [c' [-> Hin']]]].
    cbn [id] in Hid. injection Hid as Hid.
    assert (idx = idx') by lia. subst idx'.
    pose proof (enumerate_from_functional _ _ _ _ _ Hin Hin') as Heq.
    injection Heq as <- <-. reflexivity.
  - exfalso. cbn [child id] in Hid.
    apply (top_id_not_child items _ (id m0') j' Ht Hid).
  - exfalso. cbn [child id] in Hid. symmetry in Hid.
    apply (top_id_not_child items _ (id m0) j Ht' Hid).
  - cbn [child id] in Hid.
    pose proof (enumerate_from_bounds _ _ _ _ Hin) as Hj.
    pose proof (enumerate_from_bounds _ _ _ _ Hin') as Hj'.
    apply child_id_inj in Hid; [| lia | lia]. destruct Hid as [Hid <-].
    pose proof (IH t' m0' Ht' Hb0' Hid) as <-.
    rewrite Hc in Hc'. injection Hc' as <-.
    pose proof (enumerate_from_functional _ _ _ _ _ Hin Hin') as Heq.
    injection Heq as <- <-. reflexivity.
Qed.

(** C3 (as the code has it).  When [flatten] returns a graph, path ids are
    unique per occurrence of an event in the walk, and shared only between
    the terminal outcomes of one occurrence:
    - the path ids recorded for nodes (all recorded ids but the ["-end"]
      ones) are pairwise distinct;
    - two different occurrences have different path ids, and different
      path ids followed by ["-end"];
    - the path id of every occurrence is recorded exactly once in [labels],
      and that id followed by ["-end"] exactly once per terminal outcome of
      the occurrence (so more than once only for sibling terminal outcomes);
    - [labels] holds nothing else. *)
Theorem flatten_path_ids_per_occurrence fuel items evs lbs lks :
  flatten fuel (JDict items) = Ret (Some (evs, lbs, lks)) ->
  NoDup (node_ids lbs) /\
  (forall m m', occurs items m -> occurs items m' ->
     id m = id m' \/ end_id (id m) = end_id (id m') -> m = m') /\
  (forall m, occurs items m ->
     count_occ pystr_eq_dec (concat lbs) (id m) = 1%nat /\
     count_occ pystr_eq_dec (concat lbs) (end_id (id m)) =
       terminals (children m)) /\
  (forall x, In x (concat lbs) ->
     exists m, occurs items m /\ (x = id m \/ x = end_id (id m))).
Proof.
  intros H. apply flatten_Some in H.
  destruct H as [items' [work [Heq [_ [Hwork Hrun]]]]].
  injection Heq as <-. apply top_level_nodes in Hwork.
  apply (while_nodes_inv
           (fun w g =>
              fresh_ids (node_ids (snd (fst g))) (map id w) /\
              ends_traced (snd (fst g)) /\
              (forall n, In n w -> occurs items n) /\
              (forall x, In x (concat (snd (fst g))) ->
                 exists m, occurs items m /\
                           (x = id m \/ x = end_id (id m))) /\
              (forall m, occurs items m ->
                 counted (snd (fst g)) m \/
                 exists n, In n w /\ below n m))) in Hrun.
  - cbn [fst snd map] in Hrun.
    destruct Hrun as [[Hnd _] [_ [_ [Horigin Hall]]]].
    rewrite app_nil_r in Hnd. split; [exact Hnd |].
    split; [| split; [| exact Horigin]].
    + intros m m' Hm Hm' [Hid | Hid];
        [| apply end_id_inj in Hid]; eapply occurs_id_inj; eauto.
    + intros m Hm. destruct (Hall m Hm) as [[_ Hc] | [n [[] _]]]. exact Hc.
  - intros node rest [[e l] k] work' [[e' l'] k'] Hinv Hv.
    destruct Hinv as [Hf [Ht [Hocc [Horigin Hall]]]]. cbn [fst snd] in *.
    assert (Hnode : occurs items node).
    { apply Hocc. apply in_or_app. right. left. reflexivity. }
    destruct (visit_counted _ _ _ _ _ _ _ _ _ Hf Ht Hv)
      as [Hkeep [Hdone Hnew]].
    split; [apply (visit_ids node rest (e, l, k) work' (e', l', k')); assumption |].
    split.
    { eapply visit_traced; [exact Ht | | exact Hv].
      destruct Hf as [_ [_ Hend]]. apply Hend. rewrite map_app.
      apply in_or_app. right. left. reflexivity. }
    apply visit_pushed in Hv. destruct Hv as [opts [Hc ->]].
    split; [| split].
    + intros n Hn. apply in_app_or in Hn. destruct Hn as [Hn | Hn].
      * apply Hocc. apply in_or_app. auto.
      * unfold pushed_running in Hn. apply in_map_iff in Hn.
        destruct Hn as [entry [<- Hin]].
        destruct Hnode as [t [Htop Hb]]. exists t. split; [exact Htop |].
        eapply below_child; eauto.
    + intros x Hx. destruct (Hnew x Hx) as [Hold | [-> | ->]];
        [apply Horigin; exact Hold | exists node; auto | exists node; auto].
    + intros m Hm. destruct (Hall m Hm) as [Hcounted | [n [Hn Hb]]].
      * left. apply Hkeep. exact Hcounted.
      * apply in_app_or in Hn. destruct Hn as [Hn | [<- | []]].
        -- right. exists n. split; [apply in_or_app; auto | exact Hb].
        -- apply below_inv in Hb.
           destruct Hb as [-> | [opts0 [entry [Hc0 [Hin Hb]]]]];
             [left; exact Hdone |].
           rewrite Hc in Hc0. injection Hc0 as <-.
           right. exists (child node entry). split; [| exact Hb].
           apply in_or_app. right. unfold pushed_running. apply in_map.
           exact Hin.
  - cbn [fst snd]. subst work. fold (enumerate items). fold (top_nodes items).
    split; [apply top_level_fresh |]. split; [intros x [] |].
    split; [intros n Hn; exists n; split; [exact Hn | apply below_self] |].
    split; [intros x [] |].
    intros m [t [Ht Hb]]. right. exists t. auto.
Qed.

Lemma scenario1_root_occurs : occurs scenario1_items scenario1_root.
Proof.
  exists scenario1_root. split; [left; reflexivity | apply below_self].
Defined.

Lemma flatten_path_ids_per_occurrence_witness :
  flatten 1 (JDict scenario1_items) = Ret (Some scenario1_graph) /\
  occurs scenario1_items scenario1_root /\
  terminals (children scenario1_root) = 2%nat /\
  NoDup (node_ids (snd (fst scenario1_graph))) /\
  (forall m m', occurs scenario1_items m -> occurs scenario1_items m' ->
     id m = id m' \/ end_id (id m) = end_id (id m') -> m = m') /\
  (forall m, occurs scenario1_items m ->
     count_occ pystr_eq_dec (concat (snd (fst scenario1_graph))) (id m) =
       1%nat /\
     count_occ pystr_eq_dec (concat (snd (fst scenario1_graph)))
       (end_id (id m)) = terminals (children m)) /\
  (forall x, In x (concat (snd (fst scenario1_graph))) ->
     exists m, occurs scenario1_items m /\
               (x = id m \/ x = end_id (id m))).
Proof.
  split; [vm_compute; reflexivity |].
  split; [exact scenario1_root_occurs |]. split; [reflexivity |].
  apply (flatten_path_ids_per_occurrence 1 scenario1_items
           (fst (fst scenario1_graph)) (snd (fst scenario1_graph))
           (snd scenario1_graph)).
  vm_compute. reflexivity.
Defined.
